(** * PadGuide2: the monster nickname resolution engine

    A shallow embedding of the parts of [padguide2.py] that build the
    in-memory monster database and the nickname index, and that answer
    free-text queries against it, together with the properties stated for
    them.

    Conventions.
    - Python [str] values are modelled by [string]; a character is the
      code point U+0000..U+00FF it denotes, so the [str] builtins below are
      Python's, restricted to that block.
    - Python objects that are shared and mutated (the [PgMonster] records
      touched by [MonsterGroup]) live in an explicit heap indexed by
      references.
    - A call that can raise returns a [pyresult]. *)

From stdpp Require Import gmap strings list fin_maps pretty sorting.
From Stdlib Require Import Ascii ZArith QArith.QArith_base Floats.SpecFloat.

Local Open Scope Z_scope.

(** ** Python builtins used by the cog *)

Module Py.

(** Exceptions that the modelled code can raise. *)
Inductive exn :=
  ValueError | KeyError | OverflowError | ZeroDivisionError | RecursionError.

Inductive pyresult (A : Type) :=
  | Returned (a : A)
  | Raised (e : exn).
Arguments Returned {A} a.
Arguments Raised {A} e.

Definition bind {A B} (r : pyresult A) (k : A -> pyresult B) : pyresult B :=
  match r with
  | Returned a => k a
  | Raised e => Raised e
  end.

Definition code (c : ascii) : N := N_of_ascii c.

Definition between (lo hi n : N) : bool := ((lo <=? n) && (n <=? hi))%N.

(** [str.isspace] on one character: U+0009..U+000D, U+001C..U+0020,
    U+0085 and U+00A0. *)
Definition isspace (c : ascii) : bool :=
  let n := code c in
  between 9 13 n || between 28 32 n || (n =? 133)%N || (n =? 160)%N.

(** [str.lower] on one character: A..Z, and U+00C0..U+00DE except the
    multiplication sign U+00D7, move up by 32. *)
Definition lower_char (c : ascii) : ascii :=
  let n := code c in
  if between 65 90 n || (between 192 222 n && negb (n =? 215)%N)
  then ascii_of_N (n + 32) else c.

(** Characters of Unicode category Nd (accepted by [int]). *)
Definition isdecimal_char (c : ascii) : bool := between 48 57 (code c).

(** [str.isdigit] on one character: the decimal digits and the superscript
    digits U+00B2, U+00B3, U+00B9, which have Numeric_Type=Digit. *)
Definition isdigit_char (c : ascii) : bool :=
  let n := code c in
  between 48 57 n || (n =? 178)%N || (n =? 179)%N || (n =? 185)%N.

Fixpoint chars (s : string) : list ascii :=
  match s with
  | EmptyString => []
  | String c s' => c :: chars s'
  end.

Fixpoint of_chars (l : list ascii) : string :=
  match l with
  | [] => EmptyString
  | c :: l' => String c (of_chars l')
  end.

Fixpoint lower (s : string) : string :=
  match s with
  | EmptyString => EmptyString
  | String c s' => String (lower_char c) (lower s')
  end.

Fixpoint lstrip (s : string) : string :=
  match s with
  | EmptyString => EmptyString
  | String c s' => if isspace c then lstrip s' else s
  end.

(** [rstrip] keeps a character when it is not a space or when something
    survives to its right. *)
Fixpoint rstrip (s : string) : string :=
  match s with
  | EmptyString => EmptyString
  | String c s' =>
      match rstrip s' with
      | EmptyString => if isspace c then EmptyString else String c EmptyString
      | r => String c r
      end
  end.

Definition strip (s : string) : string := rstrip (lstrip s).

(** [s.startswith(p)] *)
Definition startswith (s p : string) : bool := String.prefix p s.

(** [sub in s] *)
Fixpoint contains (sub s : string) : bool :=
  startswith s sub ||
  match s with
  | EmptyString => false
  | String _ s' => contains sub s'
  end.

(** [s.split(sep)] for a one-character separator: never the empty list. *)
Fixpoint split (sep : ascii) (s : string) : list string :=
  match s with
  | EmptyString => [EmptyString]
  | String c s' =>
      if Ascii.eqb c sep then EmptyString :: split sep s'
      else match split sep s' with
           | [] => [String c EmptyString]
           | p :: ps => String c p :: ps
           end
  end.

(** [s.replace(old, new)] for a non-empty [old]: occurrences are replaced
    from the left and do not overlap. [skip] counts the characters of the
    occurrence being consumed. *)
Fixpoint replace_go (old new : string) (skip : nat) (s : string) : string :=
  match s with
  | EmptyString => EmptyString
  | String c s' =>
      match skip with
      | S k => replace_go old new k s'
      | O =>
          if startswith s old
          then new +:+ replace_go old new (Nat.pred (String.length old)) s'
          else String c (replace_go old new O s')
      end
  end.

Definition replace (old new s : string) : string := replace_go old new O s.

(** [s.isdigit()]: at least one character and all of them digits. *)
Definition isdigit (s : string) : bool :=
  match chars s with
  | [] => false
  | cs => forallb isdigit_char cs
  end.

(** [int(s)] on a string for which [isdigit] holds: the decimal value, or
    [ValueError] at a character that is a digit but not a decimal. *)
Definition int_digits (s : string) : pyresult Z :=
  fold_left
    (fun acc c =>
       bind acc (fun n =>
         if isdecimal_char c
         then Returned (10 * n + Z.of_N (code c) - 48)
         else Raised ValueError))
    (chars s) (Returned 0).

(** ["sep".join(l)] *)
Fixpoint join (sep : string) (l : list string) : string :=
  match l with
  | [] => EmptyString
  | [x] => x
  | x :: l' => x +:+ sep +:+ join sep l'
  end.

(** [max(l, key=...)]: the first element whose key no later element
    exceeds; [ValueError] on an empty sequence. *)
Definition max_by {A} (lt : A -> A -> bool) (l : list A) : pyresult A :=
  match l with
  | [] => Raised ValueError
  | x :: l' => Returned (fold_left (fun best y => if lt best y then y else best) l' x)
  end.

(** Python floats are IEEE 754 binary64 values. *)
Definition prec : Z := 53.
Definition emax : Z := 1024.

Definition float_of_int (z : Z) : spec_float := binary_normalize prec emax z 0 false.

(** [a / b] on two ints (true division). CPython rounds the exact quotient
    once; for operands of magnitude at most 2^53 that is the binary64
    quotient of the two converted operands, which is what is computed
    here. *)
Definition truediv (a b : Z) : pyresult spec_float :=
  if (b =? 0)%Z then Raised ZeroDivisionError
  else Returned (SFdiv prec emax (float_of_int a) (float_of_int b)).

Definition fadd (x y : spec_float) : spec_float := SFadd prec emax x y.

(** [int(x)] on a float: truncation toward zero. *)
Definition int_of_float (x : spec_float) : pyresult Z :=
  match x with
  | S754_zero _ => Returned 0
  | S754_infinity _ => Raised OverflowError
  | S754_nan => Raised ValueError
  | S754_finite s m e =>
      let a := match e with
               | Z0 => Zpos m
               | Zpos _ => Zpos m * 2 ^ e
               | Zneg k => Zpos m / 2 ^ Zpos k
               end in
      Returned (if s then - a else a)
  end.

(** [len(s)] *)
Definition len (s : string) : Z := Z.of_nat (String.length s).

(** [int(s)] on an arbitrary string: surrounding whitespace is ignored, one
    sign is allowed, and what remains must be a non-empty run of decimal
    digits (the grammar of Python 3.5, which the cog targets). *)
Definition int_str (s : string) : pyresult Z :=
  let body := strip s in
  let '(neg, digits) :=
    match body with
    | String "-" d => (true, d)
    | String "+" d => (false, d)
    | _ => (false, body)
    end in
  match chars digits with
  | [] => Raised ValueError
  | cs =>
      if forallb isdecimal_char cs
      then bind (int_digits digits) (fun n => Returned (if neg then - n else n))
      else Raised ValueError
  end.

(** [d[k]] on a dict *)
Definition getitem `{Countable K} {V} (d : gmap K V) (k : K) : pyresult V :=
  match d !! k with
  | Some v => Returned v
  | None => Raised KeyError
  end.

(** A list comprehension whose element expression can raise. *)
Fixpoint map_raising {A B} (f : A -> pyresult B) (l : list A) : pyresult (list B) :=
  match l with
  | [] => Returned []
  | x :: l' => bind (f x) (fun y => bind (map_raising f l') (fun ys => Returned (y :: ys)))
  end.

End Py.

(** ** Basename derivation ([NamedMonsterGroup._compute_monster_basename]) *)

Module Basename.

Definition _compute_monster_basename (name_na : string) : string :=
  let basename := Py.lower name_na in
  let basename :=
    if Py.contains "," basename then
      let name_parts := Py.split "," basename in
      if Py.startswith (Py.strip (nth 1 name_parts "")) "the "
      then nth 0 name_parts ""
      else List.last name_parts ""
    else basename in
  let basename :=
    fold_left
      (fun basename x =>
         if Py.startswith basename x then Py.replace x "" basename else basename)
      ["awoken"; "reincarnated"] basename in
  Py.strip basename.

(** The derivation as the specification words it. The leading token is
    removed once, where it stands; removing a prefix of length [n] is
    dropping [n] characters. *)
Fixpoint drop_chars (n : nat) (s : string) : string :=
  match n, s with
  | O, _ => s
  | S k, EmptyString => EmptyString
  | S k, String _ s' => drop_chars k s'
  end.

Definition strip_leading (token s : string) : string :=
  if Py.startswith s token then drop_chars (String.length token) s else s.

Definition spec_basename (name_na : string) : string :=
  let lowered := Py.lower name_na in
  let chosen :=
    if Py.contains "," lowered then
      let parts := Py.split "," lowered in
      if Py.startswith (Py.strip (nth 1 parts "")) "the "
      then nth 0 parts ""
      else List.last parts ""
    else lowered in
  Py.strip (strip_leading "reincarnated" (strip_leading "awoken" chosen)).

End Basename.


(** ** Monsters and evolution groups ([PgMonster], [MonsterGroup]) *)

Module Monsters.

Import Py.

(** A reference to a [PgMonster] object. *)
Abbreviation ref := nat (only parsing).

(** The fields of a [PgMonster] that the grouping pass reads or writes,
    after [load] and [finalize] have run. *)
Record PgMonster := {
  monster_no : Z;
  monster_no_na : Z;
  hp : Z;
  atk : Z;
  rcv : Z;
  weighted_stats : Z;
  rarity : Z;
  evo_to : list ref;
  farmable : bool;
  in_pem : bool;
  in_rem : bool;
  in_mpshop : bool;
  farmable_evo : bool;
  pem_evo : bool;
  rem_evo : bool;
  mp_evo : bool;
}.

(** [int(self.hp / 10 + self.atk / 5 + self.rcv / 3)] in [__init__]. *)
Definition compute_weighted_stats (hp atk rcv : Z) : pyresult Z :=
  bind (truediv hp 10) (fun x =>
  bind (truediv atk 5) (fun y =>
  bind (truediv rcv 3) (fun z =>
  int_of_float (fadd (fadd x y) z)))).

(** The score with each quotient floored before the sum. *)
Definition termwise_floor_stats (hp atk rcv : Z) : Z :=
  hp / 10 + atk / 5 + rcv / 3.

(** The score with the exact sum of the quotients truncated once. *)
Definition exact_sum_stats (hp atk rcv : Z) : Z :=
  Z.quot (6 * hp + 12 * atk + 20 * rcv) 60.

Abbreviation heap := (gmap nat PgMonster) (only parsing).

Record MonsterGroup := {
  base_monster : ref;
  members : list ref;
}.

(** [_recursive_add]: append [m], then descend into [m.evo_to] in order.
    [fuel] bounds the depth of the Python call stack: on a cyclic
    evolution graph the interpreter raises [RecursionError]. A reference is
    always to a live object, so a lookup that misses is [KeyError] only in
    the model. *)
Fixpoint _recursive_add (fuel : nat) (h : heap) (members : list ref) (m : ref)
  : pyresult (list ref) :=
  match fuel with
  | O => Raised RecursionError
  | S fuel' =>
      match h !! m with
      | None => Raised KeyError
      | Some o =>
          fold_left
            (fun acc em => bind acc (fun ms => _recursive_add fuel' h ms em))
            (evo_to o) (Returned (members ++ [m]))
      end
  end.

(** The four accumulators of the first loop of [_initialize_members]. *)
Record flags := {
  f_farmable : bool;
  f_pem : bool;
  f_rem : bool;
  f_mp : bool;
}.

Definition accumulate (h : heap) (acc : pyresult flags) (m : ref) : pyresult flags :=
  bind acc (fun a =>
    match h !! m with
    | None => Raised KeyError
    | Some o =>
        Returned {| f_farmable := f_farmable a || farmable o;
                    f_pem := f_pem a || in_pem o;
                    f_rem := f_rem a || in_rem o;
                    f_mp := f_mp a || in_mpshop o |}
    end).

Definition override (a : flags) (o : PgMonster) : PgMonster :=
  {| monster_no := monster_no o; monster_no_na := monster_no_na o;
     hp := hp o; atk := atk o; rcv := rcv o;
     weighted_stats := weighted_stats o; rarity := rarity o;
     evo_to := evo_to o;
     farmable := farmable o; in_pem := in_pem o; in_rem := in_rem o;
     in_mpshop := in_mpshop o;
     farmable_evo := f_farmable a;
     pem_evo := f_pem a;
     rem_evo := f_rem a;
     mp_evo := f_mp a |}.

Definition _initialize_members (h : heap) (members : list ref) : pyresult heap :=
  bind
    (fold_left (accumulate h) members
       (Returned {| f_farmable := false; f_pem := false;
                    f_rem := false; f_mp := false |}))
    (fun a => Returned (fold_left (fun h' m => alter (override a) m h') members h)).

(** [MonsterGroup.__init__] *)
Definition MonsterGroup_init (fuel : nat) (h : heap) (base : ref)
  : pyresult (MonsterGroup * heap) :=
  bind (_recursive_add fuel h [] base) (fun ms =>
  bind (_initialize_members h ms) (fun h' =>
  Returned ({| base_monster := base; members := ms |}, h'))).

(** Some member of [ms] has [flag] set in [h]: the disjunction of the
    members' individual flags. *)
Definition any_member (h : heap) (ms : list ref) (flag : PgMonster -> bool) : Prop :=
  exists r p, r ∈ ms /\ h !! r = Some p /\ flag p = true.

(** A base monster that cannot be farmed, with one evolved form that can. *)
Definition demo_monster (no : Z) (evos : list ref) (farm : bool) : PgMonster :=
  {| monster_no := no; monster_no_na := no; hp := 100; atk := 50; rcv := 30;
     weighted_stats := 30; rarity := 5; evo_to := evos;
     farmable := farm; in_pem := false; in_rem := false; in_mpshop := false;
     farmable_evo := farm; pem_evo := false; rem_evo := false; mp_evo := false |}.

Definition demo_heap : heap :=
  <[0%nat := demo_monster 1 [1%nat] false]>
    (<[1%nat := demo_monster 2 [] true]> ∅).

End Monsters.

(** ** The record store ([PgRawDatabase._load], [PgItem]) *)

Module Database.

Import Py.

(** One row of a dataset: field names to strings. *)
Abbreviation JsonRow := (gmap string string).

(** The contract of [PgItem]: a constructor from a row, [key()] and
    [deleted()]. The base class answers [False] to [deleted()]. *)
Class PgItem (T : Type) := {
  file_name : string;
  construct : JsonRow -> pyresult T;
  key : T -> Z;
  deleted : T -> bool;
}.

Definition int_field (item : JsonRow) (name : string) : pyresult Z :=
  bind (getitem item name) int_str.

Record PgAwakening := {
  aw_tma_seq : Z;
  aw_ts_seq : Z;
  aw_deleted_yn : string;
  aw_monster_no : Z;
  aw_order : Z;
}.

#[global] Instance PgAwakening_item : PgItem PgAwakening := {|
  file_name := "awokenSkillList.jsp";
  construct item :=
    bind (int_field item "TMA_SEQ") (fun tma_seq =>
    bind (int_field item "TS_SEQ") (fun ts_seq =>
    bind (getitem item "DEL_YN") (fun deleted_yn =>
    bind (int_field item "MONSTER_NO") (fun monster_no =>
    bind (int_field item "ORDER_IDX") (fun order =>
    Returned {| aw_tma_seq := tma_seq; aw_ts_seq := ts_seq;
                aw_deleted_yn := deleted_yn; aw_monster_no := monster_no;
                aw_order := order |})))));
  key x := aw_tma_seq x;
  deleted x := String.eqb (aw_deleted_yn x) "Y";
|}.

Inductive EvoType := Base | Evo | UvoAwoken | UuvoReincarnated.

(** [EvoType(n)]: the member whose value is [n]. *)
Definition EvoType_of (n : Z) : pyresult EvoType :=
  if (n =? -1)%Z then Returned Base
  else if (n =? 0)%Z then Returned Evo
  else if (n =? 1)%Z then Returned UvoAwoken
  else if (n =? 2)%Z then Returned UuvoReincarnated
  else Raised ValueError.

Record PgEvolution := {
  ev_tv_seq : Z;
  ev_from_monster_no : Z;
  ev_to_monster_no : Z;
  ev_tv_type : Z;
  ev_evo_type : EvoType;
}.

#[global] Instance PgEvolution_item : PgItem PgEvolution := {|
  file_name := "evolutionList.jsp";
  construct item :=
    bind (int_field item "TV_SEQ") (fun tv_seq =>
    bind (int_field item "MONSTER_NO") (fun from_no =>
    bind (int_field item "TO_NO") (fun to_no =>
    bind (int_field item "TV_TYPE") (fun tv_type =>
    bind (EvoType_of tv_type) (fun evo_type =>
    Returned {| ev_tv_seq := tv_seq; ev_from_monster_no := from_no;
                ev_to_monster_no := to_no; ev_tv_type := tv_type;
                ev_evo_type := evo_type |})))));
  key x := ev_tv_seq x;
  deleted x := (ev_from_monster_no x =? 0)%Z || (ev_to_monster_no x =? 0)%Z;
|}.

Record PgSeries := {
  se_tsr_seq : Z;
  se_name : string;
  se_deleted_yn : string;
}.

#[global] Instance PgSeries_item : PgItem PgSeries := {|
  file_name := "seriesList.jsp";
  construct item :=
    bind (int_field item "TSR_SEQ") (fun tsr_seq =>
    bind (getitem item "NAME_US") (fun name =>
    bind (getitem item "DEL_YN") (fun deleted_yn =>
    Returned {| se_tsr_seq := tsr_seq; se_name := name;
                se_deleted_yn := deleted_yn |})));
  key x := se_tsr_seq x;
  deleted x := String.eqb (se_deleted_yn x) "Y";
|}.

Record PgSkillRotation := {
  sr_tsr_seq : Z;
  sr_monster_no : Z;
  sr_server : string;
  sr_status : string;
}.

#[global] Instance PgSkillRotation_item : PgItem PgSkillRotation := {|
  file_name := "skillRotationList.jsp";
  construct item :=
    bind (int_field item "TSR_SEQ") (fun tsr_seq =>
    bind (int_field item "MONSTER_NO") (fun monster_no =>
    bind (getitem item "SERVER") (fun server =>
    bind (getitem item "STATUS") (fun status =>
    Returned {| sr_tsr_seq := tsr_seq; sr_monster_no := monster_no;
                sr_server := server; sr_status := status |}))));
  key x := sr_tsr_seq x;
  deleted x := String.eqb (sr_server x) "KR";
|}.

Record PgMonsterPrice := {
  mp_monster_no : Z;
  mp_buy_mp : Z;
  mp_sell_mp : Z;
}.

#[global] Instance PgMonsterPrice_item : PgItem PgMonsterPrice := {|
  file_name := "monsterPriceList.jsp";
  construct item :=
    bind (int_field item "MONSTER_NO") (fun monster_no =>
    bind (int_field item "BUY_PRICE") (fun buy_mp =>
    bind (int_field item "SELL_PRICE") (fun sell_mp =>
    Returned {| mp_monster_no := monster_no; mp_buy_mp := buy_mp;
                mp_sell_mp := sell_mp |})));
  key x := mp_monster_no x;
  deleted _ := false;
|}.

(** An item of any entity type, as held by [_all_pg_items]. *)
Inductive PgAny := AnyItem (T : Type) (inst : PgItem T) (x : T).

Definition any_deleted (a : PgAny) : bool :=
  match a with AnyItem T inst x => @deleted T inst x end.

Record PgRawDatabase := {
  _skip_load : bool;
  _all_pg_items : list PgAny;
}.

(** [{item.key(): item for item in item_list if not item.deleted()}]: a
    later item replaces an earlier one with the same key. *)
Definition result_map_of `{PgItem T} (item_list : list T) : gmap Z T :=
  fold_left
    (fun acc item => if deleted item then acc else <[key item := item]> acc)
    item_list ∅.

(** [_load(itemtype)]. [json_data] is the content of the type's file,
    [None] when [dataIO.is_valid_json] rejects it. The values of the result
    map are appended to [_all_pg_items]; their order is not tracked. *)
Definition _load `{PgItem T} (db : PgRawDatabase) (json_data : option (list JsonRow))
  : pyresult (gmap Z T * PgRawDatabase) :=
  if _skip_load db then Returned (∅, db)
  else
    bind (match json_data with
          | Some items => map_raising construct items
          | None => Returned []
          end) (fun item_list =>
    let result_map := result_map_of item_list in
    Returned (result_map,
              {| _skip_load := _skip_load db;
                 _all_pg_items :=
                   _all_pg_items db ++
                   (AnyItem T _ <$> (map_to_list result_map).*2) |})).

(** Two rows of the evolution dataset with the same key, the first carrying
    a zero target. *)
Definition demo_row (seq from to type : string) : JsonRow :=
  <["TV_SEQ" := seq]> (<["MONSTER_NO" := from]> (<["TO_NO" := to]>
    (<["TV_TYPE" := type]> ∅))).

Definition demo_rows : list JsonRow :=
  [demo_row "331" "1" "0" "0"; demo_row "332" "1" "2" "0"].

Definition empty_database : PgRawDatabase :=
  {| _skip_load := false; _all_pg_items := [] |}.

End Database.

(** ** The nickname index and the query resolver ([MonsterIndex]) *)

Module Index.

Import Py.

(** The projection of a monster that the index holds. [nm_id] stands for
    the identity of the Python object: [NamedMonster] defines neither
    [__eq__] nor [__hash__], so sets and comparisons go by identity. *)
Record NamedMonster := {
  nm_id : nat;
  monster_no : Z;
  monster_no_na : Z;
  is_low_priority : bool;
  group_size : Z;
  rarity : Z;
  name_na : string;
  name_jp : string;
  final_nicknames : list string;
  final_two_word_nicknames : list string;
}.

#[global] Instance NamedMonster_eq_dec : EqDecision NamedMonster.
Proof. solve_decision. Defined.

(** Python orders tuples lexicographically, and [False < True]. *)
Definition key_lt (k1 k2 : bool * Z * Z) : bool :=
  let '(a1, b1, c1) := k1 in
  let '(a2, b2, c2) := k2 in
  (negb a1 && a2) ||
  (Bool.eqb a1 a2 && ((b1 <? b2)%Z || ((b1 =? b2)%Z && (c1 <? c2)%Z))).

Definition key_le (k1 k2 : bool * Z * Z) : bool := negb (key_lt k2 k1).

(** [lambda x: (not x.is_low_priority, x.rarity, x.monster_no_na)] *)
Definition best_key (x : NamedMonster) : bool * Z * Z :=
  (negb (is_low_priority x), rarity x, monster_no_na x).

(** [pickBestMonster]; the argument lists the candidates in the order in
    which the set yields them. *)
Definition pickBestMonster (named_monster_list : list NamedMonster)
  : pyresult NamedMonster :=
  max_by (fun x y => key_lt (best_key x) (best_key y)) named_monster_list.

(** [named_monsters_sort] *)
Definition named_monsters_sort (nm : NamedMonster) : bool * Z * Z :=
  (negb (is_low_priority nm), group_size nm, monster_no_na nm).

(** [list.sort(key=...)] is stable: an element goes before the first one
    that is not smaller than it. *)
Fixpoint insert_sorted (x : NamedMonster) (l : list NamedMonster) : list NamedMonster :=
  match l with
  | [] => [x]
  | y :: l' =>
      if key_lt (named_monsters_sort y) (named_monsters_sort x)
      then y :: insert_sorted x l'
      else x :: l
  end.

Definition sort (l : list NamedMonster) : list NamedMonster :=
  foldr insert_sorted [] l.

Record MonsterIndex := {
  all_entries : gmap string NamedMonster;
  two_word_entries : gmap string NamedMonster;
  all_monsters : list NamedMonster;
  all_na_name_to_monsters : gmap string NamedMonster;
  monster_no_na_to_named_monster : gmap Z NamedMonster;
  monster_no_to_named_monster : gmap Z NamedMonster;
}.

(** The bulk build: every nickname of every monster, in list order, a
    later assignment replacing an earlier one. *)
Definition bulk_entries (nicknames : NamedMonster -> list string)
    (named_monsters : list NamedMonster) : gmap string NamedMonster :=
  fold_left
    (fun entries nm =>
       fold_left (fun entries nickname => <[nickname := nm]> entries)
         (nicknames nm) entries)
    named_monsters ∅.

(** [{f(m): m for m in named_monsters}] *)
Definition dict_by `{Countable K} (f : NamedMonster -> K)
    (named_monsters : list NamedMonster) : gmap K NamedMonster :=
  fold_left (fun d m => <[f m := m]> d) named_monsters ∅.

(** The last loop of [__init__]. The keys of a dict are distinct, so the
    order in which the overrides are visited does not matter. *)
Definition apply_overrides (by_no_na : gmap Z NamedMonster)
    (nickname_overrides : gmap string Z) (entries : gmap string NamedMonster)
  : gmap string NamedMonster :=
  map_fold
    (fun nickname monster_no_na entries =>
       match by_no_na !! monster_no_na with
       | Some nm => <[nickname := nm]> entries
       | None => entries
       end)
    entries nickname_overrides.

(** [MonsterIndex.__init__] from the point where [named_monsters] has been
    collected. *)
Definition MonsterIndex_init (named_monsters : list NamedMonster)
    (nickname_overrides : gmap string Z) : MonsterIndex :=
  let named_monsters := sort named_monsters in
  let by_no_na := dict_by monster_no_na named_monsters in
  {| all_entries :=
       apply_overrides by_no_na nickname_overrides
         (bulk_entries final_nicknames named_monsters);
     two_word_entries := bulk_entries final_two_word_nicknames named_monsters;
     all_monsters := named_monsters;
     all_na_name_to_monsters := dict_by (fun m => lower (name_na m)) named_monsters;
     monster_no_na_to_named_monster := by_no_na;
     monster_no_to_named_monster := dict_by monster_no named_monsters |}.

(** What [find_monster] returns: entity, reason, match-method label. *)
Definition answer : Type := option NamedMonster * option string * option string.

Definition found (m : NamedMonster) (label : string) : pyresult answer :=
  Returned (Some m, None, Some label).

Definition rejected (reason : string) : pyresult answer :=
  Returned (None, Some reason, None).

(** [matches.add(m)] on a set listed in insertion order. *)
Definition set_add (matches : list NamedMonster) (m : NamedMonster) : list NamedMonster :=
  if decide (m ∈ matches) then matches else matches ++ [m].

Definition scan_entries (p : string -> NamedMonster -> bool)
    (items : list (string * NamedMonster)) (matches : list NamedMonster)
  : list NamedMonster :=
  fold_left (fun ms kv => if p kv.1 kv.2 then set_add ms kv.2 else ms) items matches.

Definition scan_monsters (p : NamedMonster -> bool)
    (monsters : list NamedMonster) (matches : list NamedMonster)
  : list NamedMonster :=
  fold_left (fun ms m => if p m then set_add ms m else ms) monsters matches.

Definition nonempty {A} (l : list A) : bool :=
  match l with [] => false | _ => true end.

Definition count (matches : list NamedMonster) : string := pretty (length matches).

Section Resolver.

(** [rpadutils.rmdiacritics], [rpadutils.containsJp] and
    [difflib.get_close_matches] come from outside the cog. *)
Variable rmdiacritics : string -> string.
Variable containsJp : string -> bool.
Variable get_close_matches : string -> list string -> nat -> Q -> list string.

Definition normalize (query : string) : string :=
  strip (lower (rmdiacritics query)).

Definition name_startswith (query : string) (m : NamedMonster) : bool :=
  startswith (lower (name_na m)) query || startswith (lower (name_jp m)) query.

Definition name_contains (query : string) (m : NamedMonster) : bool :=
  contains query (lower (name_na m)) || contains query (lower (name_jp m)).

(** The fuzzy stages and the final rejection. *)
Definition find_close (idx : MonsterIndex) (query : string) : pyresult answer :=
  match get_close_matches query (map_to_list (all_entries idx)).*1 1 (8 # 10) with
  | k :: _ => bind (getitem (all_entries idx) k) (fun m => found m "Close nickname match")
  | [] =>
      match get_close_matches query
              (map_to_list (all_na_name_to_monsters idx)).*1 1 (9 # 10) with
      | k :: _ =>
          bind (getitem (all_na_name_to_monsters idx) k) (fun m =>
          found m "Close name match")
      | [] => rejected ("Could not find a match for: " +:+ query)
      end
  end.

(** The scanning stages, entered once the query has passed the length
    gate. *)
Definition find_scan (idx : MonsterIndex) (query : string) : pyresult answer :=
  let items := map_to_list (all_entries idx) in
  let matches := [] in
  let matches :=
    scan_entries (fun nickname _ => startswith nickname (query +:+ " ")) items matches in
  if nonempty matches then
    bind (pickBestMonster matches) (fun m =>
    found m ("Space nickname prefix, max of " +:+ count matches))
  else
  let matches := scan_entries (fun nickname _ => startswith nickname query) items matches in
  if nonempty matches then
    let all_names := join "," (name_na <$> matches) in
    bind (pickBestMonster matches) (fun m =>
    found m ("Nickname prefix, max of " +:+ count matches +:+
             ", matches=(" +:+ all_names +:+ ")"))
  else
  let matches := scan_entries (fun _ m => name_startswith query m) items matches in
  if nonempty matches then
    bind (pickBestMonster matches) (fun m =>
    found m ("Full name, max of " +:+ count matches))
  else
  match two_word_entries idx !! query with
  | Some m => found m ("Second-word nickname prefix, max of " +:+ count matches)
  | None =>
  let matches := scan_entries (fun _ m => name_contains query m) items matches in
  if nonempty matches then
    bind (pickBestMonster matches) (fun m =>
    found m ("Full name match on nickname, max of " +:+ count matches))
  else
  let matches := scan_monsters (name_contains query) (all_monsters idx) matches in
  if nonempty matches then
    bind (pickBestMonster matches) (fun m =>
    found m ("Full name match on full list, max of " +:+ count matches))
  else find_close idx query
  end.

(** [find_monster] *)
Definition find_monster (idx : MonsterIndex) (query : string) : pyresult answer :=
  let query := normalize query in
  if isdigit query then
    bind (int_digits query) (fun n =>
    match monster_no_na_to_named_monster idx !! n with
    | None => rejected "Looks like a monster ID but was not found"
    | Some m => found m "ID lookup"
    end)
  else
  match all_entries idx !! query with
  | Some m => found m "Exact nickname"
  | None =>
      let contains_jp := containsJp query in
      if (len query <? 2)%Z && contains_jp then
        rejected "Japanese queries must be at least 2 characters"
      else if (len query <? 4)%Z && negb contains_jp then
        rejected "Your query must be at least 4 letters"
      else find_scan idx query
  end.

End Resolver.

(** Stand-ins for the outside helpers on plain lower-case ASCII input:
    nothing to remove, no Japanese script, no close match. *)
Definition plain_rmdiacritics (s : string) : string := s.
Definition plain_containsJp (_ : string) : bool := false.
Definition no_close_matches (_ : string) (_ : list string) (_ : nat) (_ : Q)
  : list string := [].

(** A small index: two forms of one monster that both claim the nickname
    "revo kali", and an override table that hands it to the older one,
    names one monster by a number, and points one nickname at an id that
    no monster has. *)
Definition demo_nm (id : nat) (no rar : Z) (name : string) (nicks : list string)
  : NamedMonster :=
  {| nm_id := id; monster_no := no; monster_no_na := no;
     is_low_priority := false; group_size := 2; rarity := rar;
     name_na := name; name_jp := name;
     final_nicknames := nicks; final_two_word_nicknames := [] |}.

Definition demo_kali : NamedMonster :=
  demo_nm 0 7 6 "Kali" ["kali"; "revo kali"].

Definition demo_revo : NamedMonster :=
  demo_nm 1 12 6 "Reincarnated Kali" ["kali"; "revo kali"].

Definition demo_monsters : list NamedMonster := [demo_revo; demo_kali].

Definition demo_overrides : gmap string Z :=
  <["revo kali" := 7]> (<["12" := 7]> (<["ghost" := 999]> ∅)).

Definition demo_index : MonsterIndex :=
  MonsterIndex_init demo_monsters demo_overrides.

(** The order in which [named_monsters.sort] leaves two monsters. *)
Definition sort_le (x y : NamedMonster) : Prop :=
  key_le (named_monsters_sort x) (named_monsters_sort y) = true.

(** Every monster that the index can hand out is one of [nms]. *)
Definition holds_only (nms : list NamedMonster) (idx : MonsterIndex) : Prop :=
  (forall k m, all_entries idx !! k = Some m -> m ∈ nms) /\
  (forall k m, two_word_entries idx !! k = Some m -> m ∈ nms) /\
  (forall m, m ∈ all_monsters idx -> m ∈ nms) /\
  (forall k m, all_na_name_to_monsters idx !! k = Some m -> m ∈ nms) /\
  (forall k m, monster_no_na_to_named_monster idx !! k = Some m -> m ∈ nms).

End Index.

(** ** Reachability along evolutions *)

Module Evolution.

Import Py Monsters.

(** [x] is [m] or a transitive evolution target of [m]. *)
Inductive reaches (h : heap) : ref -> ref -> Prop :=
  | reaches_self m : reaches h m m
  | reaches_evo m o em x :
      h !! m = Some o -> em ∈ evo_to o -> reaches h em x -> reaches h m x.

(** A monster that lists itself among its own evolutions. *)
Definition loop_heap : heap :=
  <[0%nat := demo_monster 1 [0%nat] false]> ∅.

End Evolution.

(** ** Killer types ([compute_killers]) *)

Module Killers.

(** Python orders [str] values by code point, a proper prefix first. *)
Definition str_le (a b : string) : Prop := String.leb a b = true.

#[global] Instance str_le_dec : RelDecision str_le.
Proof. intros a b. unfold str_le. apply _. Defined.

(** [sorted(s)] on a set of strings: the order in which the set yields its
    elements does not show in the result. *)
Definition sorted (s : gset string) : list string :=
  merge_sort str_le (elements s).

Definition type_to_killers_map : gmap string (list string) :=
  list_to_map [
    ("God", ["Devil"]);
    ("Devil", ["God"]);
    ("Machine", ["God"; "Balance"]);
    ("Dragon", ["Machine"; "Healer"]);
    ("Physical", ["Machine"; "Healer"]);
    ("Attacker", ["Devil"; "Physical"]);
    ("Healer", ["Dragon"; "Attacker"])
  ]%string.

(** [type_to_killers_map.get(t, [])]; a monster's second and third type
    can be [None]. *)
Definition killers_of (t : option string) : list string :=
  match t with
  | Some t => default [] (type_to_killers_map !! t)
  | None => []
  end.

(** [compute_killers]; [types] is the argument tuple. *)
Definition compute_killers (types : list (option string)) : list string :=
  if decide (Some "Balance"%string ∈ types) then ["Any"%string]
  else
    let killers :=
      fold_left (fun killers t => killers ∪ list_to_set (killers_of t)) types
        (∅ : gset string) in
    sorted killers.

End Killers.

(** ** The override tables ([download_and_refresh_nicknames]) *)

Module Overrides.

Import Py.

(** A dict whose iteration order shows: its items in insertion order. An
    assignment to a key that is present keeps the key's place. *)
Fixpoint setitem {V} (d : list (string * V)) (k : string) (v : V)
  : list (string * V) :=
  match d with
  | [] => [(k, v)]
  | (k', v') :: d' =>
      if decide (k' = k) then (k', v) :: d' else (k', v') :: setitem d' k v
  end.

(** [_csv_to_key_value_map]; [rows] is what [csv.reader] yields for the
    file. *)
Definition _csv_to_key_value_map (rows : list (list string))
  : list (string * string) :=
  fold_left
    (fun results row =>
       match row with
       | c0 :: c1 :: _ =>
           let key := strip c0 in
           let value := strip c1 in
           if negb (negb (len key =? 0) && negb (len value =? 0)) then results
           else setitem results key value
       | _ => results
       end)
    rows [].

(** [{k.lower(): int(v) for k, v in nickname_overrides.items()
      if v.isdigit()}] in [download_and_refresh_nicknames]. *)
Definition nickname_overrides (items : list (string * string))
  : pyresult (gmap string Z) :=
  fold_left
    (fun acc kv =>
       bind acc (fun d =>
         if isdigit kv.2
         then bind (int_digits kv.2) (fun n => Returned (<[lower kv.1 := n]> d))
         else Returned d))
    items (Returned ∅).

(** The superscript two, U+00B2. *)
Definition superscript_two : string := String (ascii_of_N 178) EmptyString.

End Overrides.

(** ** Group priority ([NamedMonsterGroup]) *)

Module Priority.

Import Py Monsters.

(** [m.rarity] for a member [m] *)
Definition rarity_of (h : heap) (m : ref) : pyresult Z :=
  match h !! m with
  | Some o => Returned (rarity o)
  | None => Raised KeyError
  end.

(** [NamedMonsterGroup._is_low_priority_group] *)
Definition _is_low_priority_group (h : heap) (mg : MonsterGroup) : pyresult bool :=
  let lp_grp_min_rarity := 5 in
  bind (map_raising (rarity_of h) (members mg)) (fun rarities =>
  bind (max_by Z.ltb rarities) (fun max_rarity =>
  let failed_max_rarity := max_rarity <? lp_grp_min_rarity in
  Returned failed_max_rarity)).

(** What the grouping pass may change on a monster: the four group
    flags and nothing else. *)
Definition same_but_group_flags (o o' : PgMonster) : Prop :=
  monster_no o' = monster_no o /\ monster_no_na o' = monster_no_na o /\
  hp o' = hp o /\ atk o' = atk o /\ rcv o' = rcv o /\
  weighted_stats o' = weighted_stats o /\ rarity o' = rarity o /\
  evo_to o' = evo_to o /\
  farmable o' = farmable o /\ in_pem o' = in_pem o /\
  in_rem o' = in_rem o /\ in_mpshop o' = in_mpshop o.

End Priority.

(** ** The basename of a group ([NamedMonsterGroup]) *)

Module GroupBasename.

Import Py Killers.

(** [groupby(l, key)] on the keys of a list, each run of equal keys with
    its length. *)
Fixpoint groupby (l : list string) : list (string * Z) :=
  match l with
  | [] => []
  | x :: l' =>
      match groupby l' with
      | (y, n) :: g => if decide (x = y) then (x, n + 1) :: g else (x, 1) :: (y, n) :: g
      | [] => [(x, 1)]
      end
  end.

(** [NamedMonsterGroup._compute_group_basename]; [basenames] lists
    [get_basename(m)] for the members [m] in member order. Sorting and
    grouping look at the monsters through that key only. *)
Definition _compute_group_basename (basenames : list string) : pyresult string :=
  let sorted_monsters := merge_sort str_le basenames in
  let grouped := groupby sorted_monsters in
  bind (max_by (fun a b : string * Z => a.2 <? b.2) grouped) (fun best_tuple =>
  Returned best_tuple.1).

(** How many members have the basename [b]. *)
Definition occurrences (b : string) (l : list string) : Z :=
  Z.of_nat (length (filter (fun x => x = b) l)).

End GroupBasename.

(** ** Nickname generation ([NamedMonsterGroup], [NamedMonster]) *)

Module Nicknames.

Import Py.

(** [NamedMonsterGroup.__init__]: [computed_basenames], and [basenames],
    which an override set replaces as soon as it is not empty. *)
Definition computed_basenames (computed_basename : string) : gset string :=
  if contains "-" computed_basename
  then {[computed_basename]} ∪ {[replace "-" " " computed_basename]}
  else {[computed_basename]}.

Definition basenames (basename_overrides : gset string) (computed_basename : string)
  : gset string :=
  if decide (basename_overrides = ∅) then computed_basenames computed_basename
  else basename_overrides.

(** [NamedMonster.__init__]: the second word of every basename that
    [split(' ')] cuts into exactly two words. *)
Definition two_word_basenames (group_basenames : gset string) : gset string :=
  fold_left
    (fun acc basename =>
       match split " " basename with
       | [_; second] => acc ∪ {[second]}
       | _ => acc
       end)
    (elements group_basenames) ∅.

(** The body of the two loops over basenames: the basename, and behind
    every prefix the basename with and without a space between. *)
Definition add_basename (prefixes : gset string) (nicknames : gset string)
    (basename : string) : gset string :=
  fold_left
    (fun acc prefix => acc ∪ {[prefix +:+ basename]} ∪ {[prefix +:+ " " +:+ basename]})
    (elements prefixes) (nicknames ∪ {[basename]}).

Definition final_nicknames (extra_nicknames : gset string)
    (roma_subname : option string) (group_basenames prefixes : gset string)
  : gset string :=
  let nicknames := extra_nicknames in
  let nicknames :=
    match roma_subname with
    | Some (String c s) => nicknames ∪ {[String c s]}
    | _ => nicknames
    end in
  fold_left (add_basename prefixes) (elements group_basenames) nicknames.

Definition final_two_word_nicknames (group_basenames prefixes : gset string)
  : gset string :=
  fold_left (add_basename prefixes) (elements (two_word_basenames group_basenames)) ∅.

(** [k] is [basename] or a prefix followed by it, with or without a
    space. *)
Definition nickname_of (prefixes : gset string) (basename k : string) : Prop :=
  k = basename \/
  exists p, p ∈ prefixes /\ (k = p +:+ basename \/ k = p +:+ " " +:+ basename).

End Nicknames.

(** ** Event names ([cleanDungeonNames]) *)

Module Events.

Import Py.

(** [cleanDungeonNames] *)
Definition cleanDungeonNames (name : string) : string :=
  if contains "tamadra invades in some tech" (lower name)
  then "Latents invades some Techs & 20x +Eggs"
  else
  let name :=
    if contains "1.5x Bonus Pal Point in multiplay" name
    then "[Descends] 1.5x Pal Points in multiplay" else name in
  let name := replace "No Continues" "No Cont" name in
  let name := replace "No Continue" "No Cont" name in
  let name := replace "Some Limited Time Dungeons" "Some Guerrillas" name in
  let name := replace "are added in" "in" name in
  let name := replace "!" "" name in
  let name := replace "Dragon Infestation" "Dragons" name in
  let name := replace " Infestation" "s" name in
  let name := replace "Daily Descended Dungeon" "Daily Descends" name in
  let name := replace "Chance for " "" name in
  let name := replace "Jewel of the Spirit" "Spirit Jewel" name in
  let name := replace " & " "/" name in
  let name := replace " / " "/" name in
  let name := replace "PAD Radar" "PADR" name in
  let name := replace "in normal dungeons" "in normals" name in
  let name := replace "Selected " "Some " name in
  let name := replace "Enhanced " "Enh " name in
  let name := replace "All Att. Req." "All Att." name in
  let name := replace "Extreme King Metal Dragon" "Extreme KMD" name in
  let name := replace "Golden Mound-Tricolor [Fr/Wt/Wd Only]" "Golden Mound" name in
  let name := replace "Gods-Awakening Materials Descended" "Awoken Mats" name in
  let name := replace "Orb move time 4 sec" "4s move time" name in
  let name := replace "Awakening Materials Descended" "Awkn Mats" name in
  let name := replace "Star Treasure Thieves' Den" "STTD" name in
  let name := replace "Ruins of the Star Vault" "Star Vault" name in
  name.

End Events.

(** * Properties *)

(** ** Evolution groups *)

Section GroupFlags.

Import Py Monsters.

Lemma bind_returned {A B} (r : pyresult A) (k : A -> pyresult B) b :
  bind r k = Returned b -> exists a, r = Returned a /\ k a = Returned b.
Proof. destruct r as [a|e]; simpl; [eauto | discriminate]. Qed.

Lemma fold_bind_raised {A B} (f : A -> B -> pyresult A) (l : list B) e :
  fold_left (fun acc x => bind acc (fun a => f a x)) l (Raised e) = Raised e.
Proof. induction l as [|x l IH]; simpl; [reflexivity | exact IH]. Qed.

(** Every call of [_recursive_add] only appends, starting with [m]. *)
Lemma recursive_add_extends fuel h :
  forall ms m r, _recursive_add fuel h ms m = Returned r ->
    exists tail, r = ms ++ m :: tail.
Proof.
  induction fuel as [|fuel IH]; intros ms m r; simpl; [discriminate|].
  destruct (h !! m) as [o|]; [|discriminate].
  assert (Hfold : forall l acc r',
    fold_left (fun acc em => bind acc (fun ms' => _recursive_add fuel h ms' em))
      l (Returned acc) = Returned r' -> exists tail, r' = acc ++ tail).
  { induction l as [|em l IHl]; intros acc r' Hr; simpl in Hr.
    - inversion Hr; subst. exists []. by rewrite app_nil_r.
    - destruct (_recursive_add fuel h acc em) as [acc'|e] eqn:Hcall.
      + destruct (IH _ _ _ Hcall) as [t1 ->].
        destruct (IHl _ _ Hr) as [t2 ->].
        exists (em :: t1 ++ t2). by rewrite <- !app_assoc.
      + rewrite fold_bind_raised in Hr. discriminate. }
  intros Hr. destruct (Hfold _ _ _ Hr) as [tail ->].
  exists tail. by rewrite <- app_assoc.
Qed.

(** The first loop: each accumulator is the disjunction of its start value
    and the members' flags, and every member was found. *)
Lemma accumulate_fold h ms : forall a a',
  fold_left (accumulate h) ms (Returned a) = Returned a' ->
  (forall m, m ∈ ms -> is_Some (h !! m)) /\
  (f_farmable a' = true <-> f_farmable a = true \/ any_member h ms farmable) /\
  (f_pem a' = true <-> f_pem a = true \/ any_member h ms in_pem) /\
  (f_rem a' = true <-> f_rem a = true \/ any_member h ms in_rem) /\
  (f_mp a' = true <-> f_mp a = true \/ any_member h ms in_mpshop).
Proof.
  unfold any_member.
  induction ms as [|x ms IH]; intros a a' Hf; simpl in Hf.
  - inversion Hf; subst.
    split; [intros m Hm; by apply elem_of_nil in Hm|].
    repeat split; try tauto;
      intros [?|(r & p & Hr & _)]; try done; by apply elem_of_nil in Hr.
  - destruct (h !! x) as [o|] eqn:Hx; simpl in Hf.
    2:{ assert (Hraised : forall l e, fold_left (accumulate h) l (Raised e) = Raised e)
          by (induction l; simpl; auto).
        rewrite Hraised in Hf. discriminate. }
    destruct (IH _ _ Hf) as (Hall & Hfa & Hpe & Hre & Hmp); simpl in *.
    split.
    { intros m Hm. apply elem_of_cons in Hm as [->|Hm]; [by rewrite Hx | auto]. }
    repeat split.
    all: try (intros Ht;
      first [apply Hfa in Ht | apply Hpe in Ht | apply Hre in Ht | apply Hmp in Ht];
      destruct Ht as [Ht|(r & p & Hr & Hp & Hflag)];
      [apply orb_true_iff in Ht as [Ht|Ht];
        [by left | right; exists x, o; split; [apply elem_of_cons; by left | done]]
      | right; exists r, p; split; [apply elem_of_cons; by right | done]]).
    all: intros [Ht|(r & p & Hr & Hp & Hflag)];
      first [apply Hfa | apply Hpe | apply Hre | apply Hmp];
      [ left; apply orb_true_iff; by left
      | apply elem_of_cons in Hr as [->|Hr];
        [ left; apply orb_true_iff; right; congruence
        | right; by exists r, p ] ].
Qed.

Lemma override_idem a o : override a (override a o) = override a o.
Proof. reflexivity. Qed.

(** The second loop rewrites exactly the members. *)
Lemma override_fold a ms : forall (h : heap) m,
  fold_left (fun h' r => alter (override a) r h') ms h !! m =
  (if decide (m ∈ ms) then override a else id) <$> (h !! m).
Proof.
  induction ms as [|x ms IH]; intros h m; cbn [fold_left].
  - case_decide as Hin; [by apply elem_of_nil in Hin | by destruct (h !! m)].
  - rewrite IH, lookup_alter.
    destruct (decide (x = m)) as [->|Hne].
    + assert (m ∈ m :: ms) by (apply elem_of_cons; by left).
      destruct (h !! m) as [o|]; simpl; repeat case_decide; simpl;
        rewrite ?override_idem; done.
    + assert (m ∈ x :: ms <-> m ∈ ms) as Hiff
        by (rewrite elem_of_cons; naive_solver).
      repeat case_decide; try done; exfalso; naive_solver.
Qed.

(** C1. After [MonsterGroup] is constructed from a base monster, the base
    is a member, and for every member the individual flags are as before
    while [farmable_evo], [pem_evo], [rem_evo] and [mp_evo] hold exactly
    when some member of the group has [farmable], [in_pem], [in_rem],
    [in_mpshop] set: each member carries the OR over all members, whatever
    its own flag was. *)
Theorem group_flags_or_reduced fuel (h : heap) base g (h' : heap) :
  MonsterGroup_init fuel h base = Returned (g, h') ->
  base ∈ members g /\
  forall m, m ∈ members g ->
    exists o o', h !! m = Some o /\ h' !! m = Some o' /\
      farmable o' = farmable o /\ in_pem o' = in_pem o /\
      in_rem o' = in_rem o /\ in_mpshop o' = in_mpshop o /\
      (farmable_evo o' = true <-> any_member h (members g) farmable) /\
      (pem_evo o' = true <-> any_member h (members g) in_pem) /\
      (rem_evo o' = true <-> any_member h (members g) in_rem) /\
      (mp_evo o' = true <-> any_member h (members g) in_mpshop).
Proof.
  unfold MonsterGroup_init. intros Hinit.
  apply bind_returned in Hinit as (ms & Hadd & Hinit).
  apply bind_returned in Hinit as (h1 & Hmem & Hret).
  inversion Hret; subst g h1; clear Hret; cbn [members].
  apply recursive_add_extends in Hadd as [tail ->].
  change ([] ++ base :: tail) with (base :: tail) in *.
  split; [apply elem_of_cons; by left|].
  unfold _initialize_members in Hmem.
  apply bind_returned in Hmem as (a & Hacc & Hret).
  inversion Hret; subst h'; clear Hret.
  apply accumulate_fold in Hacc as (Hall & Hfa & Hpe & Hre & Hmp).
  cbn [f_farmable f_pem f_rem f_mp] in Hfa, Hpe, Hre, Hmp.
  intros m Hm. destruct (Hall m Hm) as [o Ho].
  exists o, (override a o).
  pose proof (override_fold a (base :: tail) h m) as Hl. rewrite Ho in Hl.
  destruct (decide (m ∈ base :: tail)) as [_|Hn]; [|done]. simpl in Hl.
  assert (Hor : forall P : Prop, (false = true \/ P) <-> P)
    by (intros P; split; [intros [?|?]; done | by right]).
  rewrite Hor in Hfa, Hpe, Hre, Hmp.
  split_and!; done.
Qed.

(** The scenario of C1 on [demo_heap]: the base monster cannot be farmed,
    its evolved form can, and after grouping the base carries
    [farmable_evo]. *)
Lemma group_flags_or_reduced_witness :
  exists g h', MonsterGroup_init 3 demo_heap 0%nat = Returned (g, h') /\
    exists b b', demo_heap !! 0%nat = Some b /\ farmable b = false /\
      h' !! 0%nat = Some b' /\ farmable b' = false /\ farmable_evo b' = true.
Proof.
  destruct (MonsterGroup_init 3 demo_heap 0%nat) as [[g h']|e] eqn:E;
    [|vm_compute in E; discriminate].
  exists g, h'. split; [reflexivity|].
  destruct (group_flags_or_reduced _ _ _ _ _ E) as [Hbase Hall].
  destruct (Hall _ Hbase) as (o & o' & Ho & Ho' & Hf & _ & _ & _ & Hevo & _).
  assert (Hgm : members g = [0%nat; 1%nat]).
  { vm_compute in E. by inversion E. }
  exists o, o'. vm_compute in Ho. inversion Ho; subst o. simpl.
  repeat split; auto.
  apply Hevo. exists 1%nat, (demo_monster 2 [] true). rewrite Hgm.
  split; [apply elem_of_cons; right; apply elem_of_cons; by left|].
  split; vm_compute; reflexivity.
Defined.

End GroupFlags.

(** ** The record store *)

Section RecordStore.

Import Py Database.

Context {T : Type} `{PgItem T}.

(** What the dict comprehension leaves under a key: the start value, or an
    item of the list that is not deleted and has that key. *)
Lemma result_map_fold (l : list T) : forall (acc : gmap Z T) k v,
  fold_left
    (fun acc item => if deleted item then acc else <[key item := item]> acc)
    l acc !! k = Some v ->
  acc !! k = Some v \/ (v ∈ l /\ deleted v = false /\ key v = k).
Proof.
  induction l as [|x l IH]; intros acc k v Hk; cbn [fold_left] in Hk.
  - by left.
  - apply IH in Hk as [Hk|(Hin & Hd & Hkey)].
    + destruct (deleted x) eqn:Hdx; [by left|].
      rewrite lookup_insert in Hk. case_decide as Heq.
      * inversion Hk; subst. right. split_and!; [apply elem_of_cons; by left|done..].
      * by left.
    + right. split_and!; [apply elem_of_cons; by right|done..].
Qed.

(** A live item keeps its key bound. *)
Lemma result_map_live (l : list T) : forall (acc : gmap Z T) x,
  x ∈ l -> deleted x = false ->
  is_Some (fold_left
    (fun acc item => if deleted item then acc else <[key item := item]> acc)
    l acc !! key x).
Proof.
  assert (Hkeep : forall (l : list T) (acc : gmap Z T) k, is_Some (acc !! k) ->
    is_Some (fold_left
      (fun acc item => if deleted item then acc else <[key item := item]> acc)
      l acc !! k)).
  { clear. induction l as [|y l IH]; intros acc k Hs; cbn [fold_left]; [done|].
    apply IH. destruct (deleted y); [done|].
    rewrite lookup_insert. by case_decide. }
  induction l as [|y l IH]; intros acc x Hin Hd; cbn [fold_left].
  - by apply elem_of_nil in Hin.
  - apply elem_of_cons in Hin as [->|Hin]; [|by apply IH].
    apply Hkeep. rewrite Hd, lookup_insert_eq. by eexists.
Qed.

(** C8. Whatever the entity type, the map returned by [_load] binds a key
    only to an entity with that key whose [deleted()] is false, so an
    entity that reports [deleted()] is bound under no key; and the entries
    that the call appends to [_all_pg_items] are not deleted either. *)
Theorem load_filters_deleted (db db' : PgRawDatabase)
    (json_data : option (list JsonRow)) (m : gmap Z T) :
  _load db json_data = Returned (m, db') ->
  (forall k v, m !! k = Some v -> deleted v = false /\ key v = k) /\
  (forall v, deleted v = true -> forall k, m !! k <> Some v) /\
  (forall a, a ∈ _all_pg_items db' ->
     a ∈ _all_pg_items db \/ any_deleted a = false).
Proof.
  unfold _load. intros Hload.
  assert (Hvals : forall k v, m !! k = Some v -> deleted v = false /\ key v = k).
  { destruct (_skip_load db).
    - inversion Hload; subst. intros k v Hk. by rewrite lookup_empty in Hk.
    - apply bind_returned in Hload as (items & _ & Hret).
      inversion Hret; subst. intros k v Hk.
      apply result_map_fold in Hk as [Hk|(_ & Hd & Hkey)]; [|done].
      by rewrite lookup_empty in Hk. }
  split; [exact Hvals|]. split.
  - intros v Hd k Hk. apply Hvals in Hk as [Hd' _]. congruence.
  - destruct (_skip_load db).
    + inversion Hload; subst. intros a Ha. by left.
    + apply bind_returned in Hload as (items & _ & Hret).
      inversion Hret; subst; clear Hret. cbn [_all_pg_items].
      intros a Ha. apply elem_of_app in Ha as [Ha|Ha]; [by left|right].
      apply list_elem_of_fmap in Ha as (v & -> & Hv).
      apply list_elem_of_fmap in Hv as ([k v'] & -> & Hkv).
      apply elem_of_map_to_list in Hkv. simpl.
      by destruct (Hvals _ _ Hkv).
Qed.

End RecordStore.

(** C8 on the evolution dataset [demo_rows]: row 331 has a zero target, so
    only row 332 is loaded. *)
Lemma load_filters_deleted_witness :
  exists (m : gmap Z Database.PgEvolution) db',
    Database._load Database.empty_database (Some Database.demo_rows)
      = Py.Returned (m, db') /\
    m !! 331 = None /\ is_Some (m !! 332) /\
    forall a, a ∈ Database._all_pg_items db' -> Database.any_deleted a = false.
Proof.
  assert (E : exists (m : gmap Z Database.PgEvolution) db',
    Database._load Database.empty_database (Some Database.demo_rows)
      = Py.Returned (m, db') /\ m !! 331 = None /\ is_Some (m !! 332)).
  { eexists _, _. split; [reflexivity|].
    split; vm_compute; [reflexivity|by eexists]. }
  destruct E as (m & db' & E & H331 & H332).
  exists m, db'. split; [exact E|]. split; [exact H331|]. split; [exact H332|].
  destruct (load_filters_deleted _ _ _ _ E) as (_ & _ & Hall).
  intros a Ha. destruct (Hall a Ha) as [Hold|Hd]; [|exact Hd].
  by apply elem_of_nil in Hold.
Defined.

(** ** The tie-break *)

Section PickBest.

Import Py Index.

Ltac key_cases :=
  unfold key_le, key_lt in *;
  repeat match goal with
         | k : (bool * Z * Z)%type |- _ => destruct k as [[[] ?] ?]
         end;
  repeat match goal with
         | |- context [(?a <? ?b)%Z] => destruct (Z.ltb_spec a b)
         | |- context [(?a =? ?b)%Z] => destruct (Z.eqb_spec a b)
         | H : context [(?a <? ?b)%Z] |- _ => destruct (Z.ltb_spec a b)
         | H : context [(?a =? ?b)%Z] |- _ => destruct (Z.eqb_spec a b)
         end;
  simpl in *; try done; try lia.

Lemma key_le_refl k : key_le k k = true.
Proof. key_cases. Qed.

Lemma key_le_trans k1 k2 k3 :
  key_le k1 k2 = true -> key_le k2 k3 = true -> key_le k1 k3 = true.
Proof. intros H1 H2. key_cases. Qed.

Lemma key_lt_le k1 k2 : key_lt k1 k2 = true -> key_le k1 k2 = true.
Proof. intros H1. key_cases. Qed.

Lemma key_not_lt_le k1 k2 : key_lt k1 k2 = false -> key_le k2 k1 = true.
Proof. unfold key_le. by intros ->. Qed.

(** The running maximum of [max]: it is one of the elements seen, and no
    element seen has a larger key. *)
Lemma max_fold_spec {A} (key : A -> bool * Z * Z) (l : list A) : forall best,
  let r := fold_left (fun best y => if key_lt (key best) (key y) then y else best)
             l best in
  r ∈ best :: l /\ forall y, y ∈ best :: l -> key_le (key y) (key r) = true.
Proof.
  induction l as [|x l IH]; intros best; cbn [fold_left].
  - split; [apply elem_of_cons; by left|].
    intros y Hy. apply elem_of_cons in Hy as [->|Hy]; [apply key_le_refl|].
    by apply elem_of_nil in Hy.
  - set (b' := if key_lt (key best) (key x) then x else best).
    destruct (IH b') as [Hin Hmax]. split.
    + apply elem_of_cons in Hin as [Hin|Hin].
      * rewrite Hin. subst b'. destruct (key_lt (key best) (key x)).
        -- apply elem_of_cons; right. apply elem_of_cons; by left.
        -- apply elem_of_cons; by left.
      * apply elem_of_cons; right. apply elem_of_cons; by right.
    + assert (Hb : key_le (key best) (key b') = true /\ key_le (key x) (key b') = true).
      { subst b'. destruct (key_lt (key best) (key x)) eqn:Hlt.
        - split; [by apply key_lt_le | apply key_le_refl].
        - split; [apply key_le_refl | by apply key_not_lt_le]. }
      destruct Hb as [Hbest Hx].
      assert (Hb' : key_le (key b') (key (fold_left
        (fun best y => if key_lt (key best) (key y) then y else best) l b')) = true).
      { apply Hmax. apply elem_of_cons; by left. }
      intros y Hy. apply elem_of_cons in Hy as [->|Hy].
      * eapply key_le_trans; eauto.
      * apply elem_of_cons in Hy as [->|Hy].
        -- eapply key_le_trans; eauto.
        -- apply Hmax. apply elem_of_cons; by right.
Qed.

(** C3. On a non-empty set of candidates, in whatever order the set yields
    them, [pickBestMonster] returns a candidate whose key
    [(not is_low_priority, rarity, monster_no_na)] no candidate exceeds; in
    particular no candidate with the winner's priority class and rarity
    has a larger id. *)
Theorem pick_best_is_maximum (l : list NamedMonster) :
  l <> [] ->
  exists r, pickBestMonster l = Returned r /\ r ∈ l /\
    (forall x, x ∈ l -> key_le (best_key x) (best_key r) = true) /\
    (forall x, x ∈ l ->
       is_low_priority x = is_low_priority r -> rarity x = rarity r ->
       (monster_no_na x <= monster_no_na r)%Z).
Proof.
  intros Hne. destruct l as [|x0 l]; [done|].
  unfold pickBestMonster, max_by.
  destruct (max_fold_spec best_key l x0) as [Hin Hmax].
  eexists. split; [reflexivity|]. split; [exact Hin|]. split; [exact Hmax|].
  intros x Hx Hlp Hr. specialize (Hmax x Hx).
  unfold best_key in Hmax. rewrite Hlp, Hr in Hmax.
  unfold key_le, key_lt in Hmax.
  destruct (is_low_priority _); simpl in Hmax;
    rewrite Z.ltb_irrefl, Z.eqb_refl in Hmax; simpl in Hmax;
    apply negb_true_iff, Z.ltb_ge in Hmax; exact Hmax.
Qed.

(** C3 on two forms with equal priority class and rarity: the one with
    the larger id wins. *)
Lemma pick_best_is_maximum_witness :
  [demo_revo; demo_kali] <> [] /\
  exists r, pickBestMonster [demo_revo; demo_kali] = Returned r /\
    r ∈ [demo_revo; demo_kali] /\
    (forall x, x ∈ [demo_revo; demo_kali] ->
       key_le (best_key x) (best_key r) = true) /\
    (forall x, x ∈ [demo_revo; demo_kali] ->
       is_low_priority x = is_low_priority r -> rarity x = rarity r ->
       (monster_no_na x <= monster_no_na r)%Z).
Proof. split; [done|]. apply pick_best_is_maximum. done. Defined.

End PickBest.

(** ** Group membership *)

Section GroupMembers.

Import Py Monsters Evolution.

(** One call of [_recursive_add] appends exactly what [m] reaches. *)
Lemma recursive_add_reaches fuel (h : heap) :
  forall ms m r, _recursive_add fuel h ms m = Returned r ->
    exists tail, r = ms ++ tail /\ forall x, x ∈ tail <-> reaches h m x.
Proof.
  induction fuel as [|fuel IH]; intros ms m r; cbn [_recursive_add]; [discriminate|].
  destruct (h !! m) as [o|] eqn:Hm; [|discriminate].
  assert (Hfold : forall l acc r',
    fold_left (fun acc em => bind acc (fun ms' => _recursive_add fuel h ms' em))
      l (Returned acc) = Returned r' ->
    exists t, r' = acc ++ t /\
      forall x, x ∈ t <-> exists em, em ∈ l /\ reaches h em x).
  { induction l as [|em l IHl]; intros acc r' Hr; simpl in Hr.
    - inversion Hr; subst. exists []. split; [by rewrite app_nil_r|].
      intros x. split; [intros Hx; by apply elem_of_nil in Hx|].
      intros (em & Hem & _). by apply elem_of_nil in Hem.
    - destruct (_recursive_add fuel h acc em) as [acc'|e] eqn:Hcall.
      + destruct (IH _ _ _ Hcall) as (t1 & -> & Ht1).
        destruct (IHl _ _ Hr) as (t2 & -> & Ht2).
        exists (t1 ++ t2). split; [by rewrite app_assoc|].
        intros x. rewrite elem_of_app, Ht1, Ht2. split.
        * intros [Hx|(em' & Hem' & Hx)].
          -- exists em. split; [apply elem_of_cons; by left | done].
          -- exists em'. split; [apply elem_of_cons; by right | done].
        * intros (em' & Hem' & Hx). apply elem_of_cons in Hem' as [->|Hem'].
          -- by left.
          -- right. by exists em'.
      + rewrite fold_bind_raised in Hr. discriminate. }
  intros Hr. destruct (Hfold _ _ _ Hr) as (t & -> & Ht).
  exists (m :: t). split; [by rewrite <- app_assoc|].
  intros x. rewrite elem_of_cons, Ht. split.
  - intros [->|(em & Hem & Hx)]; [apply reaches_self|].
    by eapply reaches_evo.
  - intros Hx. inversion Hx as [|? o' em ? Ho' Hem Hreach]; subst; [by left|].
    rewrite Hm in Ho'. inversion Ho'; subst o'. right. by exists em.
Qed.

(** X1. The members of a constructed group are exactly the monsters that
    the base reaches along [evo_to] edges. *)
Theorem group_members_are_reachable fuel (h : heap) base g (h' : heap) :
  MonsterGroup_init fuel h base = Returned (g, h') ->
  forall x, x ∈ members g <-> reaches h base x.
Proof.
  unfold MonsterGroup_init. intros Hinit.
  apply bind_returned in Hinit as (ms & Hadd & Hinit).
  apply bind_returned in Hinit as (h1 & _ & Hret).
  inversion Hret; subst g h1; clear Hret. cbn [members].
  apply recursive_add_reaches in Hadd as (tail & -> & Htail).
  exact Htail.
Qed.

Lemma group_members_are_reachable_witness :
  exists g h', MonsterGroup_init 3 demo_heap 0%nat = Returned (g, h') /\
    forall x, x ∈ members g <-> reaches demo_heap 0%nat x.
Proof.
  destruct (MonsterGroup_init 3 demo_heap 0%nat) as [[g h']|e] eqn:E;
    [|vm_compute in E; discriminate].
  exists g, h'. split; [reflexivity|].
  exact (group_members_are_reachable _ _ _ _ _ E).
Defined.

(** X2. A monster that is among its own evolution targets makes
    [_recursive_add] exhaust the call stack: the call never returns a
    member list, whatever the depth allowed. *)
Theorem recursive_add_self_loop fuel (h : heap) ms m o :
  h !! m = Some o -> m ∈ evo_to o ->
  exists e, _recursive_add fuel h ms m = Raised e.
Proof.
  intros Hm Hin. revert ms.
  induction fuel as [|fuel IH]; intros ms; cbn [_recursive_add]; [by eexists|].
  rewrite Hm.
  assert (Hfold : forall l (acc : pyresult (list ref)), m ∈ l ->
    exists e, fold_left
      (fun acc em => bind acc (fun ms' => _recursive_add fuel h ms' em))
      l acc = Raised e).
  { induction l as [|em l IHl]; intros acc Hl; [by apply elem_of_nil in Hl|].
    cbn [fold_left]. apply elem_of_cons in Hl as [<-|Hl]; [|by apply IHl].
    destruct acc as [a|e]; simpl.
    - destruct (IH a) as [e ->]. exists e. apply fold_bind_raised.
    - exists e. apply fold_bind_raised. }
  by apply Hfold.
Qed.

Lemma recursive_add_self_loop_witness :
  exists e, _recursive_add 50 loop_heap [] 0%nat = Raised e.
Proof.
  apply (recursive_add_self_loop 50 loop_heap [] 0%nat (demo_monster 1 [0%nat] false)).
  - reflexivity.
  - apply elem_of_cons; by left.
Defined.

End GroupMembers.

(** ** The bulk build of the index *)

Section BulkBuild.

Import Py Index.

Lemma insert_sorted_perm x l : insert_sorted x l ≡ₚ x :: l.
Proof.
  induction l as [|y l IH]; cbn [insert_sorted]; [done|].
  destruct (key_lt _ _); [|done].
  rewrite IH. apply Permutation_swap.
Qed.

Lemma insert_sorted_sorted x l :
  StronglySorted sort_le l -> StronglySorted sort_le (insert_sorted x l).
Proof.
  induction 1 as [|y l Hl IH Hy]; cbn [insert_sorted].
  - repeat constructor.
  - destruct (key_lt _ _) eqn:Hlt.
    + constructor; [exact IH|].
      rewrite insert_sorted_perm. constructor; [|exact Hy].
      by apply key_lt_le.
    + assert (Hxy : sort_le x y) by by apply key_not_lt_le.
      constructor; [by constructor|].
      constructor; [exact Hxy|].
      eapply Forall_impl; [exact Hy|].
      intros z Hz. unfold sort_le in *. by eapply key_le_trans.
Qed.

(** An element passes only elements with a strictly smaller key, so among
    equal keys the original order is kept. *)
Lemma insert_sorted_filter k x l :
  filter (fun y => named_monsters_sort y = k) (insert_sorted x l) =
  filter (fun y => named_monsters_sort y = k) (x :: l).
Proof.
  induction l as [|y l IH]; cbn [insert_sorted]; [done|].
  destruct (key_lt _ _) eqn:Hlt; [|done].
  rewrite filter_cons, IH, !filter_cons.
  destruct (decide (named_monsters_sort y = k)) as [Hy|Hy];
    destruct (decide (named_monsters_sort x = k)) as [Hx|Hx]; try done.
  exfalso. rewrite Hy, Hx in Hlt.
  pose proof (key_le_refl k) as Hr. unfold key_le in Hr. by rewrite Hlt in Hr.
Qed.

Lemma sort_perm (l : list NamedMonster) : sort l ≡ₚ l.
Proof.
  unfold sort. induction l as [|x l IH]; cbn [foldr]; [done|].
  by rewrite insert_sorted_perm, IH.
Qed.

Lemma sort_sorted (l : list NamedMonster) : StronglySorted sort_le (sort l).
Proof.
  unfold sort. induction l as [|x l IH]; cbn [foldr]; [constructor|].
  by apply insert_sorted_sorted.
Qed.

(** X3. [named_monsters.sort(key=named_monsters_sort)] rearranges the list
    without losing or duplicating a monster, leaves it in ascending order
    of [(not is_low_priority, group_size, monster_no_na)], and is stable:
    the monsters that share a key keep their relative order. *)
Theorem sort_is_stable_sort (l : list NamedMonster) :
  sort l ≡ₚ l /\
  StronglySorted sort_le (sort l) /\
  forall k, filter (fun y => named_monsters_sort y = k) (sort l) =
            filter (fun y => named_monsters_sort y = k) l.
Proof.
  split; [apply sort_perm|]. split; [apply sort_sorted|].
  intros k. unfold sort. induction l as [|x l IH]; cbn [foldr]; [done|].
  by rewrite insert_sorted_filter, !filter_cons, IH.
Qed.

(** Filling the dict with one monster's nicknames. *)
Lemma fill_lookup (nm : NamedMonster) ns : forall (e : gmap string NamedMonster) k,
  fold_left (fun e n => <[n := nm]> e) ns e !! k =
  if decide (k ∈ ns) then Some nm else e !! k.
Proof.
  induction ns as [|n ns IH]; intros e k; cbn [fold_left].
  - case_decide as Hin; [by apply elem_of_nil in Hin|done].
  - rewrite IH. rewrite lookup_insert.
    repeat case_decide; subst; try done.
    + exfalso. match goal with H : _ ∉ _ :: _ |- _ => apply H end.
      apply elem_of_cons; by right.
    + exfalso. match goal with H : _ ∉ _ :: _ |- _ => apply H end.
      apply elem_of_cons; by left.
    + match goal with H : _ ∈ _ :: _ |- _ => apply elem_of_cons in H as [?|?] end;
        congruence.
Qed.

Lemma bulk_entries_snoc f l nm k :
  bulk_entries f (l ++ [nm]) !! k =
  if decide (k ∈ f nm) then Some nm else bulk_entries f l !! k.
Proof.
  unfold bulk_entries. rewrite fold_left_app. cbn [fold_left].
  apply fill_lookup.
Qed.

(** The monster bound to a nickname is the last one in the list that
    carries it. *)
Lemma bulk_entries_last f l : forall k w,
  bulk_entries f l !! k = Some w ->
  exists l1 l2, l = l1 ++ w :: l2 /\ k ∈ f w /\ Forall (fun x => k ∉ f x) l2.
Proof.
  induction l as [|nm l IH] using rev_ind; intros k w Hk.
  - unfold bulk_entries in Hk. cbn in Hk. by rewrite lookup_empty in Hk.
  - rewrite bulk_entries_snoc in Hk. case_decide as Hin.
    + inversion Hk; subst. exists l, []. split_and!; [done|done|constructor].
    + destruct (IH _ _ Hk) as (l1 & l2 & -> & Hw & Hl2).
      exists l1, (l2 ++ [nm]). split_and!; [by rewrite <- app_assoc|done|].
      apply Forall_app. split; [done|]. by constructor.
Qed.

Lemma bulk_entries_bound f l : forall k x,
  x ∈ l -> k ∈ f x -> is_Some (bulk_entries f l !! k).
Proof.
  induction l as [|nm l IH] using rev_ind; intros k x Hx Hk.
  - by apply elem_of_nil in Hx.
  - rewrite bulk_entries_snoc. case_decide as Hin; [by eexists|].
    apply elem_of_app in Hx as [Hx|Hx]; [by eapply IH|].
    apply list_elem_of_singleton in Hx. by subst.
Qed.

(** X4. Without overrides, a nickname that some monster carries is bound
    in [all_entries], and the monster it is bound to carries it and has the
    largest key [(not is_low_priority, group_size, monster_no_na)] among
    the monsters that carry it. *)
Theorem nickname_goes_to_highest_priority (nms : list NamedMonster) (k : string) :
  let entries := all_entries (MonsterIndex_init nms ∅) in
  (forall x, x ∈ nms -> k ∈ final_nicknames x -> is_Some (entries !! k)) /\
  (forall w, entries !! k = Some w ->
     w ∈ nms /\ k ∈ final_nicknames w /\
     forall x, x ∈ nms -> k ∈ final_nicknames x -> sort_le x w).
Proof.
  cbn. unfold apply_overrides. rewrite map_fold_empty.
  pose proof (sort_perm nms) as Hperm. pose proof (sort_sorted nms) as Hsorted.
  split.
  - intros x Hx Hk. eapply bulk_entries_bound; [|exact Hk]. by rewrite Hperm.
  - intros w Hw. apply bulk_entries_last in Hw as (l1 & l2 & Hl & Hkw & Hl2).
    split_and!; [|done|].
    + rewrite <- Hperm, Hl. apply elem_of_app; right. apply elem_of_cons; by left.
    + intros x Hx Hkx. rewrite <- Hperm, Hl in Hx.
      apply elem_of_app in Hx as [Hx|Hx].
      * rewrite Hl in Hsorted.
        eapply (StronglySorted_app_1_elem_of sort_le); [exact Hsorted|exact Hx|].
        apply elem_of_cons; by left.
      * apply elem_of_cons in Hx as [->|Hx]; [apply key_le_refl|].
        rewrite Forall_forall in Hl2. exfalso. by eapply Hl2.
Qed.

(** The dicts keyed by an id hold, under each id, a monster with that id,
    and every monster's id is bound. *)
Lemma dict_by_lookup `{Countable K} (f : NamedMonster -> K) l :
  (forall x, x ∈ l -> is_Some (dict_by f l !! f x)) /\
  (forall k v, dict_by f l !! k = Some v -> v ∈ l /\ f v = k).
Proof.
  unfold dict_by. induction l as [|nm l [IH1 IH2]] using rev_ind.
  - split; [intros x Hx; by apply elem_of_nil in Hx|].
    intros k v Hk. cbn in Hk. by rewrite lookup_empty in Hk.
  - rewrite fold_left_app. cbn [fold_left]. split.
    + intros x Hx. rewrite lookup_insert. case_decide; [by eexists|].
      apply elem_of_app in Hx as [Hx|Hx]; [by apply IH1|].
      apply list_elem_of_singleton in Hx. by subst.
    + intros k v Hk. rewrite lookup_insert in Hk. case_decide as Heq.
      * inversion Hk; subst. split; [|done].
        apply elem_of_app; right. apply elem_of_cons; by left.
      * destruct (IH2 _ _ Hk) as [Hin Hf]. split; [|done].
        apply elem_of_app; by left.
Qed.


End BulkBuild.

(** ** What a query can return *)

Section Soundness.

Import Py Index.

Variable rmdiacritics : string -> string.
Variable containsJp : string -> bool.
Variable get_close_matches : string -> list string -> nat -> Q -> list string.

Lemma bulk_entries_within f l k m :
  bulk_entries f l !! k = Some m -> m ∈ l.
Proof.
  intros Hk. apply bulk_entries_last in Hk as (l1 & l2 & -> & _).
  apply elem_of_app; right. apply elem_of_cons; by left.
Qed.

Lemma apply_overrides_within (nms : list NamedMonster) by_no_na ov entries :
  (forall n m, by_no_na !! n = Some m -> m ∈ nms) ->
  (forall k m, entries !! k = Some m -> m ∈ nms) ->
  forall k m, apply_overrides by_no_na ov entries !! k = Some m -> m ∈ nms.
Proof.
  intros Hby Hentries. unfold apply_overrides.
  apply (map_fold_weak_ind
           (fun (r : gmap string NamedMonster) (_ : gmap string Z) =>
              forall k m, r !! k = Some m -> m ∈ nms)); [exact Hentries|].
  intros nick n _ r _ IH k m. destruct (by_no_na !! n) as [nm|] eqn:Hn; [|apply IH].
  rewrite lookup_insert. case_decide; [|apply IH].
  intros [= <-]. by eapply Hby.
Qed.

Lemma init_holds_only nms overrides :
  holds_only nms (MonsterIndex_init nms overrides).
Proof.
  pose proof (sort_perm nms) as Hperm.
  assert (Hby : forall n m, dict_by monster_no_na (sort nms) !! n = Some m -> m ∈ nms).
  { intros n m Hm. rewrite <- Hperm. by eapply dict_by_lookup. }
  unfold holds_only; cbn. split_and!.
  - apply apply_overrides_within; [exact Hby|].
    intros k m Hm. rewrite <- Hperm. by eapply bulk_entries_within.
  - intros k m Hm. rewrite <- Hperm. by eapply bulk_entries_within.
  - intros m Hm. by rewrite <- Hperm.
  - intros k m Hm. rewrite <- Hperm. by eapply dict_by_lookup.
  - exact Hby.
Qed.

Lemma set_add_within (nms ms : list NamedMonster) m :
  Forall (fun x => x ∈ nms) ms -> m ∈ nms -> Forall (fun x => x ∈ nms) (set_add ms m).
Proof.
  intros Hms Hm. unfold set_add. case_decide; [done|].
  apply Forall_app. split; [done|]. by constructor.
Qed.

Lemma scan_entries_within (nms : list NamedMonster) p items : forall ms,
  Forall (fun kv => kv.2 ∈ nms) items ->
  Forall (fun x => x ∈ nms) ms ->
  Forall (fun x => x ∈ nms) (scan_entries p items ms).
Proof.
  unfold scan_entries. induction items as [|kv items IH]; intros ms Hitems Hms; [done|].
  cbn [fold_left]. inversion Hitems; subst. apply IH; [done|].
  destruct (p _ _); [by apply set_add_within|done].
Qed.

Lemma scan_monsters_within (nms : list NamedMonster) p monsters : forall ms,
  Forall (fun x => x ∈ nms) monsters ->
  Forall (fun x => x ∈ nms) ms ->
  Forall (fun x => x ∈ nms) (scan_monsters p monsters ms).
Proof.
  unfold scan_monsters. induction monsters as [|x monsters IH]; intros ms Hmon Hms; [done|].
  cbn [fold_left]. inversion Hmon; subst. apply IH; [done|].
  destruct (p _); [by apply set_add_within|done].
Qed.

Lemma pick_best_within (nms ms : list NamedMonster) (k : NamedMonster -> pyresult answer)
    m r l :
  Forall (fun x => x ∈ nms) ms ->
  (forall x, k x = Returned (Some m, r, l) -> x = m) ->
  bind (pickBestMonster ms) k = Returned (Some m, r, l) -> m ∈ nms.
Proof.
  intros Hms Hk. destruct ms as [|x0 ms]; [done|]. cbn.
  destruct (max_fold_spec best_key ms x0) as [Hin _]. cbn in Hin.
  intros Hr. apply Hk in Hr. rewrite <- Hr.
  rewrite Forall_forall in Hms. by apply Hms.
Qed.

Lemma getitem_within `{Countable K} (nms : list NamedMonster) (d : gmap K NamedMonster)
    key label m r l :
  (forall k x, d !! k = Some x -> x ∈ nms) ->
  bind (getitem d key) (fun x => found x label) = Returned (Some m, r, l) -> m ∈ nms.
Proof.
  intros Hd. unfold getitem. destruct (d !! key) as [x|] eqn:Hx; [|done].
  cbn. intros [= <- _ _]. by eapply Hd.
Qed.

Lemma find_close_within nms idx query m r l :
  holds_only nms idx ->
  find_close get_close_matches idx query = Returned (Some m, r, l) -> m ∈ nms.
Proof.
  intros (Hall & _ & _ & Hname & _). unfold find_close.
  destruct (get_close_matches _ _ _ _); [|by apply getitem_within].
  destruct (get_close_matches _ _ _ _); [done|by apply getitem_within].
Qed.

Lemma find_scan_within nms idx query m r l :
  holds_only nms idx ->
  find_scan get_close_matches idx query = Returned (Some m, r, l) -> m ∈ nms.
Proof.
  intros Hidx. pose proof Hidx as (Hall & Htwo & Hmon & _ & _).
  assert (Hitems : Forall (fun kv : string * NamedMonster => kv.2 ∈ nms)
                     (map_to_list (all_entries idx))).
  { apply Forall_forall. intros [k x] Hkx. apply elem_of_map_to_list in Hkx.
    by eapply Hall. }
  assert (Hmons : Forall (fun x => x ∈ nms) (all_monsters idx)).
  { by apply Forall_forall. }
  assert (Hfound : forall label x, found x label = Returned (Some m, r, l) -> x = m).
  { intros label x [= -> _ _]. done. }
  unfold find_scan.
  repeat match goal with
  | |- context [nonempty ?ms] =>
      destruct (nonempty ms);
      [ apply pick_best_within; [|by apply Hfound];
        repeat first [ apply scan_entries_within
                     | apply scan_monsters_within
                     | exact Hitems | exact Hmons | constructor ] |]
  | |- context [two_word_entries idx !! ?q] =>
      destruct (two_word_entries idx !! q) as [x|] eqn:Hx;
      [ intros Hr; apply Hfound in Hr; subst; by eapply Htwo |]
  end.
  by apply find_close_within.
Qed.

(** X6. Whatever the query, a monster that [find_monster] returns from a
    built index is one of the monsters the index was built from: neither
    the dicts, the scans, the tie-break nor the override table can
    produce another one. *)
Theorem found_monster_is_indexed nms overrides query m r l :
  find_monster rmdiacritics containsJp get_close_matches
    (MonsterIndex_init nms overrides) query = Returned (Some m, r, l) ->
  m ∈ nms.
Proof.
  pose proof (init_holds_only nms overrides) as Hidx.
  pose proof Hidx as (Hall & _ & _ & _ & Hna).
  generalize dependent (MonsterIndex_init nms overrides). intros idx Hidx Hall Hna.
  unfold find_monster. destruct (isdigit _).
  - destruct (int_digits _) as [n|]; [|done]. cbn.
    destruct (monster_no_na_to_named_monster idx !! n) as [x|] eqn:Hx; [|done].
    intros [= <- _ _]. by eapply Hna.
  - destruct (all_entries idx !! _) as [x|] eqn:Hx.
    + intros [= <- _ _]. by eapply Hall.
    + destruct (_ && _); [done|]. destruct (_ && _); [done|].
      by apply find_scan_within.
Qed.

End Soundness.

(** X6 on the query "Revo" against the small index. *)
Lemma found_monster_is_indexed_witness :
  exists m r l,
    Index.find_monster Index.plain_rmdiacritics Index.plain_containsJp
      Index.no_close_matches Index.demo_index "Revo" = Py.Returned (Some m, r, l) /\
    m ∈ Index.demo_monsters.
Proof.
  eexists _, _, _. split; [vm_compute; reflexivity|].
  eapply (found_monster_is_indexed Index.plain_rmdiacritics Index.plain_containsJp
            Index.no_close_matches Index.demo_monsters Index.demo_overrides "Revo").
  vm_compute. reflexivity.
Defined.

(** ** Killer types *)

Section KillersProps.
Import Killers.

Lemma string_compare_le_trans : forall a b c,
  String.compare a b <> Gt -> String.compare b c <> Gt -> String.compare a c <> Gt.
Proof.
  induction a as [|x a IH]; intros [|y b] [|z c]; cbn; try done.
  destruct (Ascii.compare x y) eqn:Hxy; try done;
    destruct (Ascii.compare y z) eqn:Hyz; try done;
    intros Hab Hbc.
  - apply Ascii.compare_eq_iff in Hxy, Hyz. subst.
    assert (Hzz : Ascii.compare z z = Eq) by (unfold Ascii.compare; apply N.compare_refl).
    rewrite Hzz. by eapply IH.
  - apply Ascii.compare_eq_iff in Hxy. subst. by rewrite Hyz.
  - apply Ascii.compare_eq_iff in Hyz. subst. by rewrite Hxy.
  - assert (Hxz : Ascii.compare x z = Lt).
    { unfold Ascii.compare in *. rewrite N.compare_lt_iff in *. lia. }
    by rewrite Hxz.
Qed.

#[local] Instance str_le_trans : Transitive str_le.
Proof.
  intros a b c. unfold str_le, String.leb. intros Hab Hbc.
  pose proof (string_compare_le_trans a b c) as H.
  destruct (String.compare a b); destruct (String.compare b c);
    destruct (String.compare a c); try done; exfalso; by apply H.
Qed.

#[local] Instance str_le_total : Total str_le.
Proof. intros a b. apply String.leb_total. Qed.

Lemma killers_fold (types : list (option string)) : forall (acc : gset string) k,
  k ∈ fold_left (fun killers t => killers ∪ list_to_set (killers_of t)) types acc <->
  k ∈ acc \/ exists t, t ∈ types /\ k ∈ killers_of t.
Proof.
  induction types as [|t types IH]; intros acc k; cbn [fold_left].
  - split; [by left|]. intros [?|(t & Ht & _)]; [done|]. by apply elem_of_nil in Ht.
  - rewrite IH, elem_of_union, elem_of_list_to_set. split.
    + intros [[?|?]|(t' & Ht' & Hk)]; [by left| |].
      * right. exists t. split; [apply elem_of_cons; by left|done].
      * right. exists t'. split; [apply elem_of_cons; by right|done].
    + intros [?|(t' & Ht' & Hk)]; [left; by left|].
      apply elem_of_cons in Ht' as [->|Ht']; [left; by right|].
      right. by exists t'.
Qed.

Lemma sorted_spec (s : gset string) :
  (forall k, k ∈ sorted s <-> k ∈ s) /\
  StronglySorted str_le (sorted s) /\ NoDup (sorted s).
Proof.
  unfold sorted. split_and!.
  - intros k. by rewrite merge_sort_Permutation, elem_of_elements.
  - apply StronglySorted_merge_sort; apply _.
  - rewrite merge_sort_Permutation. apply NoDup_elements.
Qed.

Lemma killers_members (types : list (option string)) k :
  Some "Balance"%string ∉ types ->
  k ∈ compute_killers types <->
  exists t ks, Some t ∈ types /\ type_to_killers_map !! t = Some ks /\ k ∈ ks.
Proof.
  intros Hbal. unfold compute_killers. case_decide; [done|].
  match goal with |- context [sorted ?s] =>
    destruct (sorted_spec s) as (Hin & _ & _) end.
  rewrite Hin, killers_fold. split.
  - intros [Hk|(t & Ht & Hk)]; [by apply elem_of_empty in Hk|].
    destruct t as [t|]; [|by apply elem_of_nil in Hk]. unfold killers_of in Hk.
    destruct (type_to_killers_map !! t) as [ks|] eqn:Hks; [|by apply elem_of_nil in Hk].
    by exists t, ks.
  - intros (t & ks & Ht & Hks & Hk). right. exists (Some t). split; [done|].
    unfold killers_of. by rewrite Hks.
Qed.

(** X7. When no type is 'Balance', [compute_killers] returns exactly the
    killers that [type_to_killers_map] lists for the given types (a type
    that is [None] or unknown gives none), in ascending order and without
    a duplicate. *)
Theorem killers_ascending_union (types : list (option string)) :
  Some "Balance"%string ∉ types ->
  (forall k, k ∈ compute_killers types <->
     exists t ks, Some t ∈ types /\ type_to_killers_map !! t = Some ks /\ k ∈ ks) /\
  StronglySorted str_le (compute_killers types) /\
  NoDup (compute_killers types).
Proof.
  intros Hbal. split; [intros k; by apply killers_members|].
  unfold compute_killers. case_decide; [done|].
  match goal with |- context [sorted ?s] =>
    destruct (sorted_spec s) as (_ & Hsorted & Hnodup) end.
  done.
Qed.

(** X8. [compute_killers] answers ['Any'] exactly when one of the types
    is 'Balance': no entry of [type_to_killers_map] can produce that
    answer. *)
Theorem killers_any_iff_balance (types : list (option string)) :
  compute_killers types = ["Any"%string] <-> Some "Balance"%string ∈ types.
Proof.
  split.
  - intros Hany. destruct (decide (Some "Balance"%string ∈ types)) as [|Hbal]; [done|].
    exfalso.
    assert (Hk : "Any"%string ∈ compute_killers types).
    { rewrite Hany. apply elem_of_cons; by left. }
    apply killers_members in Hk as (t & ks & _ & Hks & Hk); [|done].
    apply elem_of_list_to_map_2 in Hks.
    repeat (apply elem_of_cons in Hks as [[= -> ->]|Hks];
            [repeat (apply elem_of_cons in Hk as [[=]|Hk]); by apply elem_of_nil in Hk|]).
    by apply elem_of_nil in Hks.
  - intros Hbal. unfold compute_killers. by case_decide.
Qed.

(** X9. The answer of [compute_killers] depends only on which types
    occur among the arguments, not on their order or on repetitions. *)
Theorem killers_ignore_order (types1 types2 : list (option string)) :
  (forall t, t ∈ types1 <-> t ∈ types2) ->
  compute_killers types1 = compute_killers types2.
Proof.
  intros Hsame. unfold compute_killers.
  destruct (decide (_ ∈ types1)) as [H1|H1]; destruct (decide (_ ∈ types2)) as [H2|H2];
    try done; try (exfalso; apply Hsame in H1 || apply Hsame in H2; done).
  f_equal. apply set_eq. intros k. rewrite !killers_fold.
  split; intros [?|(t & Ht & Hk)]; try (by left); right; exists t;
    (split; [by apply Hsame|done]).
Qed.

End KillersProps.

(** X7 on a dragon/attacker monster without a third type. *)
Lemma killers_ascending_union_witness :
  (Some "Balance"%string ∉ [Some "Dragon"; Some "Attacker"; None]%string) /\
  Killers.compute_killers [Some "Dragon"; Some "Attacker"; None]%string =
    ["Devil"; "Healer"; "Machine"; "Physical"]%string /\
  NoDup (Killers.compute_killers [Some "Dragon"; Some "Attacker"; None]%string).
Proof.
  assert (H : Some "Balance"%string ∉ [Some "Dragon"; Some "Attacker"; None]%string).
  { intros Hin. repeat (apply elem_of_cons in Hin as [[=]|Hin]). by apply elem_of_nil in Hin. }
  split; [exact H|]. split; [vm_compute; reflexivity|].
  apply (killers_ascending_union _ H).
Defined.

(** X9 on a repeated type and a reordering. *)
Lemma killers_ignore_order_witness :
  Killers.compute_killers [Some "God"; Some "Healer"; Some "God"]%string =
  Killers.compute_killers [Some "Healer"; Some "God"]%string.
Proof.
  apply killers_ignore_order. intros t. rewrite !elem_of_cons. tauto.
Defined.

(** ** The override tables *)

Section OverridesProps.
Import Py Overrides.

Lemma lstrip_head s :
  lstrip s = EmptyString \/ exists c s', lstrip s = String c s' /\ isspace c = false.
Proof.
  induction s as [|c s IH]; cbn [lstrip]; [by left|].
  destruct (isspace c) eqn:Hc; [exact IH|]. right. by exists c, s.
Qed.

Lemma rstrip_cons_nospace c s :
  isspace c = false -> rstrip (String c s) = String c (rstrip s).
Proof. intros Hc. cbn [rstrip]. rewrite Hc. by destruct (rstrip s). Qed.

Lemma rstrip_idem s : rstrip (rstrip s) = rstrip s.
Proof.
  induction s as [|c s IH]; [done|]. cbn [rstrip].
  destruct (rstrip s) as [|c' r] eqn:Hr.
  - destruct (isspace c) eqn:Hc; [done|]. cbn [rstrip]. by rewrite Hc.
  - cbn [rstrip]. cbn [rstrip] in IH. rewrite IH. done.
Qed.

Lemma strip_idem s : strip (strip s) = strip s.
Proof.
  unfold strip. destruct (lstrip_head s) as [->|(c & s' & -> & Hc)]; [done|].
  rewrite rstrip_cons_nospace by done. cbn [lstrip]. rewrite Hc.
  rewrite rstrip_cons_nospace by done. by rewrite rstrip_idem.
Qed.

Lemma lower_char_idem c : lower_char (lower_char c) = lower_char c.
Proof. destruct c as [[] [] [] [] [] [] [] []]; reflexivity. Qed.

Lemma lower_idem s : lower (lower s) = lower s.
Proof. induction s as [|c s IH]; [done|]. cbn [lower]. by rewrite lower_char_idem, IH. Qed.

Lemma len_zero s : (len s =? 0) = true <-> s = EmptyString.
Proof.
  unfold len. destruct s; cbn; [done|]. split; [|done]. intros H.
  apply Z.eqb_eq in H. lia.
Qed.

Lemma setitem_spec {V} (d : list (string * V)) k v :
  d.*1 ⊆ (setitem d k v).*1 /\
  k ∈ (setitem d k v).*1 /\
  (NoDup d.*1 -> NoDup (setitem d k v).*1) /\
  (forall k' v', (k', v') ∈ setitem d k v -> (k', v') ∈ d \/ (k' = k /\ v' = v)).
Proof.
  induction d as [|[k0 v0] d (IH1 & IH2 & IH3 & IH4)]; cbn [setitem].
  - split_and!; [intros x Hx; by apply elem_of_nil in Hx|apply elem_of_cons; by left
      |intros _; apply NoDup_singleton|].
    intros k' v' Hin. apply list_elem_of_singleton in Hin as [= -> ->]. by right.
  - case_decide as Hk; [subst k0|]; cbn [fmap list_fmap fst] in *.
    + split_and!; [done|apply elem_of_cons; by left|done|].
      intros k' v' Hin. apply elem_of_cons in Hin as [[= -> ->]|Hin]; [by right|].
      left. apply elem_of_cons; by right.
    + split_and!.
      * intros x Hx. apply elem_of_cons in Hx as [->|Hx]; apply elem_of_cons;
          [by left|right; by apply IH1].
      * apply elem_of_cons; by right.
      * intros Hnd. apply NoDup_cons in Hnd as [Hnotin Hnd]. apply NoDup_cons.
        split; [|by apply IH3]. intros Hin. apply list_elem_of_fmap in Hin as ([k1 v1] & Hk1 & Hin).
        cbn in Hk1. subst k1. apply IH4 in Hin as [Hin|[? _]]; [|done].
        apply Hnotin. apply list_elem_of_fmap. by exists (k0, v1).
      * intros k' v' Hin. apply elem_of_cons in Hin as [[= -> ->]|Hin].
        -- left. apply elem_of_cons; by left.
        -- apply IH4 in Hin as [Hin|Hin]; [left; apply elem_of_cons; by right|by right].
Qed.


Lemma csv_fold rows : forall acc : list (string * string),
  let step := fun (results : list (string * string)) (row : list string) =>
       match row with
       | c0 :: c1 :: _ =>
           if negb (negb (len (strip c0) =? 0) && negb (len (strip c1) =? 0)) then results
           else setitem results (strip c0) (strip c1)
       | _ => results
       end in
  let r := fold_left step rows acc in
  (NoDup acc.*1 -> NoDup r.*1) /\
  acc.*1 ⊆ r.*1 /\
  (forall k v, (k, v) ∈ r ->
     (k, v) ∈ acc \/
     (k <> EmptyString /\ v <> EmptyString /\
      exists c0 c1 rest, (c0 :: c1 :: rest) ∈ rows /\ strip c0 = k /\ strip c1 = v)) /\
  (forall c0 c1 rest, (c0 :: c1 :: rest) ∈ rows ->
     strip c0 <> EmptyString -> strip c1 <> EmptyString -> strip c0 ∈ r.*1).
Proof.
  induction rows as [|row rows IH]; intros acc step; cbn [fold_left].
  - split_and!; [done|done|by left|]. intros c0 c1 rest Hin. by apply elem_of_nil in Hin.
  - destruct (IH (step acc row)) as (IHnd & IHsub & IHin & IHrow). fold step.
    assert (Hstep : (NoDup acc.*1 -> NoDup (step acc row).*1) /\
              acc.*1 ⊆ (step acc row).*1 /\
              (forall k v, (k, v) ∈ step acc row ->
                 (k, v) ∈ acc \/
                 (k <> EmptyString /\ v <> EmptyString /\
                  exists c0 c1 rest, row = c0 :: c1 :: rest /\ strip c0 = k /\ strip c1 = v)) /\
              (forall c0 c1 rest, row = c0 :: c1 :: rest ->
                 strip c0 <> EmptyString -> strip c1 <> EmptyString ->
                 strip c0 ∈ (step acc row).*1)).
    { unfold step. destruct row as [|c0 [|c1 rest]];
        [split_and!; [done|done|by left|done]..|].
      destruct (len (strip c0) =? 0) eqn:H0; cbn [negb andb].
      { apply len_zero in H0. split_and!; [done|done|by left|].
        by intros ??? [= <- <- <-]. }
      destruct (len (strip c1) =? 0) eqn:H1; cbn [negb andb].
      { apply len_zero in H1. split_and!; [done|done|by left|].
        by intros ??? [= <- <- <-]. }
      destruct (setitem_spec acc (strip c0) (strip c1)) as (S1 & S2 & S3 & S4).
      split_and!; [done|done| |by intros ??? [= <- <- <-]].
      intros k v Hin. apply S4 in Hin as [Hin|[-> ->]]; [by left|]. right.
      split_and!.
      - intros Hk. apply len_zero in Hk. congruence.
      - intros Hv. apply len_zero in Hv. congruence.
      - by exists c0, c1, rest. }
    destruct Hstep as (S1 & S2 & S3 & S4). split_and!.
    + intros Hnd. by apply IHnd, S1.
    + intros x Hx. by apply IHsub, S2.
    + intros k v Hin. apply IHin in Hin as [Hin|(Hk & Hv & c0 & c1 & rest & Hrow & Hs)].
      * apply S3 in Hin as [Hin|(Hk & Hv & c0 & c1 & rest & -> & Hs)]; [by left|].
        right. split_and!; [done|done|]. exists c0, c1, rest.
        split; [apply elem_of_cons; by left|done].
      * right. split_and!; [done|done|]. exists c0, c1, rest.
        split; [apply elem_of_cons; by right|done].
    + intros c0 c1 rest Hin H0 H1. apply elem_of_cons in Hin as [<-|Hin].
      * apply IHsub. by eapply S4.
      * by eapply IHrow.
Qed.

(** X10. The dict that [_csv_to_key_value_map] builds has distinct keys;
    each key and value is non-empty, carries no surrounding whitespace and
    is the stripped first and second column of some row; and every row
    with two non-blank leading columns has its key in the dict. Rows with
    fewer than two columns or a blank key or value leave no trace. *)
Theorem csv_map_is_clean (rows : list (list string)) :
  let results := _csv_to_key_value_map rows in
  NoDup results.*1 /\
  (forall k v, (k, v) ∈ results ->
     k <> EmptyString /\ v <> EmptyString /\ strip k = k /\ strip v = v /\
     exists c0 c1 rest, (c0 :: c1 :: rest) ∈ rows /\ strip c0 = k /\ strip c1 = v) /\
  (forall c0 c1 rest, (c0 :: c1 :: rest) ∈ rows ->
     strip c0 <> EmptyString -> strip c1 <> EmptyString -> strip c0 ∈ results.*1).
Proof.
  destruct (csv_fold rows []) as (Hnd & _ & Hin & Hrow). split_and!.
  - apply Hnd. constructor.
  - intros k v Hkv. apply Hin in Hkv as [Hkv|(Hk & Hv & c0 & c1 & rest & Hr & <- & <-)];
      [by apply elem_of_nil in Hkv|].
    split_and!; [done|done|apply strip_idem|apply strip_idem|].
    by exists c0, c1, rest.
  - exact Hrow.
Qed.

Lemma int_digits_fold cs : forall n,
  0 <= n ->
  let r := fold_left
    (fun acc c =>
       bind acc (fun n =>
         if isdecimal_char c
         then Returned (10 * n + Z.of_N (code c) - 48)
         else Raised ValueError))
    cs (Returned n) in
  if forallb isdecimal_char cs then exists m, r = Returned m /\ 0 <= m
  else r = Raised ValueError.
Proof.
  induction cs as [|c cs IH]; intros n Hn; cbn [fold_left forallb].
  - by exists n.
  - cbn [bind]. destruct (isdecimal_char c) eqn:Hc; cbn [andb].
    + apply IH. unfold isdecimal_char, between in Hc.
      apply andb_true_iff in Hc as [Hc _]. apply N.leb_le in Hc. lia.
    + apply fold_bind_raised.
Qed.

Lemma int_digits_spec s :
  if forallb isdecimal_char (chars s)
  then exists m, int_digits s = Returned m /\ 0 <= m
  else int_digits s = Raised ValueError.
Proof. apply (int_digits_fold (chars s) 0). lia. Qed.

Lemma nickname_overrides_fold items : forall (d0 d : gmap string Z),
  fold_left
    (fun acc kv =>
       bind acc (fun d =>
         if isdigit kv.2
         then bind (int_digits kv.2) (fun n => Returned (<[lower kv.1 := n]> d))
         else Returned d))
    items (Returned d0) = Returned d ->
  forall k n, d !! k = Some n ->
    d0 !! k = Some n \/
    (lower k = k /\ 0 <= n /\
     exists k0 v, (k0, v) ∈ items /\ lower k0 = k /\ isdigit v = true /\
                  int_digits v = Returned n).
Proof.
  induction items as [|[k0 v] items IH]; intros d0 d; cbn [fold_left bind fst snd].
  - intros [= ->] k n Hk. by left.
  - destruct (isdigit v) eqn:Hv.
    + pose proof (int_digits_spec v) as Hint.
      destruct (forallb isdecimal_char (chars v)).
      * destruct Hint as (m & Hm & Hpos). rewrite Hm. cbn [bind].
        intros Hf k n Hk. destruct (IH _ _ Hf _ _ Hk) as [H0|(Hl & Hn & k1 & v1 & Hin & Hrest)].
        -- rewrite lookup_insert in H0. case_decide as Heq; [|by left].
           injection H0 as <-. right. split_and!; [by rewrite <- Heq, lower_idem|done|].
           exists k0, v. split; [apply elem_of_cons; by left|done].
        -- right. split_and!; [done|done|]. exists k1, v1.
           split; [apply elem_of_cons; by right|done].
      * rewrite Hint. cbn [bind]. rewrite fold_bind_raised. done.
    + intros Hf k n Hk. destruct (IH _ _ Hf _ _ Hk) as [H0|(Hl & Hn & k1 & v1 & Hin & Hrest)];
        [by left|].
      right. split_and!; [done|done|]. exists k1, v1.
      split; [apply elem_of_cons; by right|done].
Qed.

(** X11. When the override table builds, every key of
    [nickname_overrides] is already lower-case, every value is a
    non-negative integer, and each entry comes from an item of the CSV
    dict whose value passed [isdigit]. *)
Theorem nickname_overrides_sound items (d : gmap string Z) :
  nickname_overrides items = Returned d ->
  forall k n, d !! k = Some n ->
    lower k = k /\ 0 <= n /\
    exists k0 v, (k0, v) ∈ items /\ lower k0 = k /\ isdigit v = true /\
                 int_digits v = Returned n.
Proof.
  intros Hd k n Hk.
  destruct (nickname_overrides_fold items ∅ d Hd k n Hk) as [H0|H]; [|done].
  by rewrite lookup_empty in H0.
Qed.

(** X12. [isdigit] accepts characters that [int] rejects: if some value
    of the CSV dict consists of digit characters that are not all decimal
    digits (a superscript two, say), building [nickname_overrides] raises
    [ValueError], whatever the other items are. *)
Theorem nickname_overrides_reject_digit items k v :
  (k, v) ∈ items ->
  isdigit v = true ->
  forallb isdecimal_char (chars v) = false ->
  nickname_overrides items = Raised ValueError.
Proof.
  intros Hin Hv Hdec. unfold nickname_overrides.
  generalize (∅ : gmap string Z).
  induction items as [|[k0 v0] items IH]; intros d0; [by apply elem_of_nil in Hin|].
  cbn [fold_left bind fst snd].
  apply elem_of_cons in Hin as [[= <- <-]|Hin].
  - rewrite Hv. pose proof (int_digits_spec v) as Hint. rewrite Hdec in Hint.
    rewrite Hint. cbn [bind]. apply fold_bind_raised.
  - destruct (isdigit v0); [|by apply IH].
    pose proof (int_digits_spec v0) as Hint.
    destruct (forallb isdecimal_char (chars v0)).
    + destruct Hint as (m & -> & _). cbn [bind]. by apply IH.
    + rewrite Hint. cbn [bind]. apply fold_bind_raised.
Qed.

End OverridesProps.

(** X11 on a mixed-case key and a non-numeric value. *)
Lemma nickname_overrides_sound_witness :
  exists d,
    Overrides.nickname_overrides [("Revo Kali", "12"); ("kali", "x")]%string = Py.Returned d /\
    d !! "revo kali"%string = Some 12 /\
    Py.lower "revo kali" = "revo kali"%string.
Proof.
  eexists. split; [reflexivity|]. split; [vm_compute; reflexivity|].
  eapply (nickname_overrides_sound [("Revo Kali", "12"); ("kali", "x")]%string);
    [reflexivity|vm_compute; reflexivity].
Defined.

(** X12 on a value that is the superscript two. *)
Lemma nickname_overrides_reject_digit_witness :
  Overrides.nickname_overrides
    [("kali", "7"); ("sq", Overrides.superscript_two)]%string = Py.Raised Py.ValueError.
Proof.
  apply (nickname_overrides_reject_digit _ "sq"%string Overrides.superscript_two).
  - apply elem_of_cons; right. apply elem_of_cons; by left.
  - vm_compute; reflexivity.
  - vm_compute; reflexivity.
Defined.

(** ** Group priority and what grouping leaves alone *)

Section PriorityProps.
Import Py Monsters Priority.

Lemma max_fold_Z (l : list Z) : forall best,
  let r := fold_left (fun best y => if best <? y then y else best) l best in
  r ∈ best :: l /\ forall y, y ∈ best :: l -> y <= r.
Proof.
  induction l as [|x l IH]; intros best; cbn [fold_left].
  - split; [apply elem_of_cons; by left|].
    intros y Hy. apply list_elem_of_singleton in Hy. lia.
  - destruct (IH (if best <? x then x else best)) as [Hin Hmax]. split.
    + apply elem_of_cons in Hin as [Hin|Hin].
      * rewrite Hin. destruct (best <? x); apply elem_of_cons; [right|by left].
        apply elem_of_cons; by left.
      * apply elem_of_cons; right. apply elem_of_cons; by right.
    + intros y Hy.
      assert (Hb : best <= (if best <? x then x else best) /\
                   x <= (if best <? x then x else best)).
      { destruct (Z.ltb_spec best x); lia. }
      assert (Hfirst := Hmax _ (proj2 (elem_of_cons _ _ _) (or_introl eq_refl))).
      apply elem_of_cons in Hy as [->|Hy]; [lia|].
      apply elem_of_cons in Hy as [->|Hy]; [lia|].
      apply Hmax. apply elem_of_cons; by right.
Qed.

Lemma rarities_of_members (h : heap) ms :
  (forall m, m ∈ ms -> is_Some (h !! m)) ->
  exists rs, map_raising (rarity_of h) ms = Returned rs /\
    Forall2 (fun m r => exists o, h !! m = Some o /\ rarity o = r) ms rs.
Proof.
  induction ms as [|m ms IH]; intros Hall; cbn [map_raising].
  - exists []. split; [done|constructor].
  - destruct (Hall m) as [o Ho]; [apply elem_of_cons; by left|].
    destruct IH as (rs & Hrs & Hf2).
    { intros m' Hm'. apply Hall. apply elem_of_cons; by right. }
    unfold rarity_of at 1. rewrite Ho. cbn [bind]. rewrite Hrs. cbn [bind].
    exists (rarity o :: rs). split; [done|]. constructor; [by exists o|done].
Qed.

(** The state of the heap and of the member list once a group is built. *)
Lemma group_init_inv fuel (h : heap) base g (h' : heap) :
  MonsterGroup_init fuel h base = Returned (g, h') ->
  exists tail a,
    members g = base :: tail /\
    (forall m, m ∈ members g -> is_Some (h !! m)) /\
    forall m, h' !! m =
      (if decide (m ∈ members g) then override a else id) <$> (h !! m).
Proof.
  unfold MonsterGroup_init. intros Hinit.
  apply bind_returned in Hinit as (ms & Hadd & Hinit).
  apply bind_returned in Hinit as (h1 & Hmem & Hret).
  inversion Hret; subst g h1; clear Hret; cbn [members].
  apply recursive_add_extends in Hadd as [tail ->].
  change ([] ++ base :: tail) with (base :: tail) in *.
  unfold _initialize_members in Hmem.
  apply bind_returned in Hmem as (a & Hacc & Hret).
  inversion Hret; subst h'; clear Hret.
  apply accumulate_fold in Hacc as (Hall & _).
  exists tail, a. split_and!; [done|done|].
  intros m. exact (override_fold a (base :: tail) h m).
Qed.

(** X13. On a group that [MonsterGroup] has built,
    [_is_low_priority_group] never raises (the member list is not empty
    and every member is live), and it answers [True] exactly when every
    member has a rarity below 5. *)
Theorem low_priority_group_iff_all_below_five fuel (h : heap) base g (h' : heap) :
  MonsterGroup_init fuel h base = Returned (g, h') ->
  exists b, _is_low_priority_group h' g = Returned b /\
    (b = true <->
     forall m o, m ∈ members g -> h' !! m = Some o -> rarity o < 5).
Proof.
  intros Hinit. apply group_init_inv in Hinit as (tail & a & Hms & Hall & Hh').
  destruct (rarities_of_members h' (members g)) as (rs & Hrs & Hf2).
  { intros m Hm. rewrite Hh'. destruct (Hall m Hm) as [o ->]. by eexists. }
  unfold _is_low_priority_group. rewrite Hrs. cbn [bind].
  rewrite Hms in Hf2. inversion Hf2 as [|m0 r0 ms0 rs0 Hr0 Htail]; subst.
  cbn [max_by bind]. eexists. split; [reflexivity|].
  destruct (max_fold_Z rs0 r0) as [Hin Hmax]. cbn zeta in Hin, Hmax.
  set (r := fold_left _ rs0 r0) in *.
  rewrite Z.ltb_lt. split.
  - intros Hr m o Hm Ho. rewrite Hms in Hm.
    assert (Hf2' : Forall2 (fun m r => exists o, h' !! m = Some o /\ rarity o = r)
                     (base :: tail) (r0 :: rs0)) by by constructor.
    apply list_elem_of_lookup in Hm as [i Hi].
    destruct (Forall2_lookup_l _ _ _ _ _ Hf2' Hi) as (ri & Hri & o' & Ho' & <-).
    rewrite Ho in Ho'. injection Ho' as <-.
    apply list_elem_of_lookup_2 in Hri. specialize (Hmax _ Hri). lia.
  - intros Hall5.
    assert (Hf2' : Forall2 (fun m r => exists o, h' !! m = Some o /\ rarity o = r)
                     (base :: tail) (r0 :: rs0)) by by constructor.
    apply list_elem_of_lookup in Hin as [i Hi].
    destruct (Forall2_lookup_r _ _ _ _ _ Hf2' Hi) as (mi & Hmi & o' & Ho' & <-).
    apply list_elem_of_lookup_2 in Hmi. rewrite <- Hms in Hmi.
    by eapply Hall5.
Qed.

(** X14. Building a group creates and deletes no monster, leaves every
    monster outside the group as it was, and on a member changes nothing
    but the four group flags: ids, stats, rarity, evolution links and the
    monster's own acquisition flags are kept. *)
Theorem group_init_frame fuel (h : heap) base g (h' : heap) :
  MonsterGroup_init fuel h base = Returned (g, h') ->
  (forall m, m ∉ members g -> h' !! m = h !! m) /\
  (forall m, is_Some (h' !! m) <-> is_Some (h !! m)) /\
  (forall m o', h' !! m = Some o' ->
     exists o, h !! m = Some o /\ same_but_group_flags o o').
Proof.
  intros Hinit. apply group_init_inv in Hinit as (tail & a & Hms & Hall & Hh').
  split_and!.
  - intros m Hm. rewrite Hh'. case_decide; [done|]. by destruct (h !! m).
  - intros m. rewrite Hh'. by rewrite fmap_is_Some.
  - intros m o' Ho'. rewrite Hh' in Ho'.
    destruct (h !! m) as [o|]; [|done]. exists o. split; [done|].
    cbn in Ho'. injection Ho' as <-.
    case_decide; unfold same_but_group_flags; cbn; split_and!; done.
Qed.

End PriorityProps.

(** X13 on the two-member group of rarity 5. *)
Lemma low_priority_group_iff_all_below_five_witness :
  exists g h' b,
    Monsters.MonsterGroup_init 3 Monsters.demo_heap 0%nat = Py.Returned (g, h') /\
    Priority._is_low_priority_group h' g = Py.Returned b /\
    (b = true <->
     forall m o, m ∈ Monsters.members g -> h' !! m = Some o -> Monsters.rarity o < 5).
Proof.
  eexists _, _.
  assert (H := low_priority_group_iff_all_below_five 3 Monsters.demo_heap 0%nat
                 _ _ eq_refl).
  destruct H as (b & Hb & Hiff). exists b. split; [reflexivity|]. split; [exact Hb|exact Hiff].
Defined.

(** X14 on the same group. *)
Lemma group_init_frame_witness :
  exists g h',
    Monsters.MonsterGroup_init 3 Monsters.demo_heap 0%nat = Py.Returned (g, h') /\
    forall m, m ∉ Monsters.members g -> h' !! m = Monsters.demo_heap !! m.
Proof.
  eexists _, _. split; [reflexivity|].
  apply (group_init_frame 3 Monsters.demo_heap 0%nat _ _ eq_refl).
Defined.

(** ** The basename of a group *)

Section GroupBasenameProps.
Import Py Killers GroupBasename.

#[local] Existing Instance str_le_trans.
#[local] Existing Instance str_le_total.

Lemma str_le_antisym a b : str_le a b -> str_le b a -> a = b.
Proof. apply String.leb_antisym. Qed.

Lemma occurrences_cons b x l :
  occurrences b (x :: l) = (if decide (x = b) then 1 else 0) + occurrences b l.
Proof.
  unfold occurrences. rewrite filter_cons. case_decide; cbn [length]; lia.
Qed.

Lemma occurrences_nonneg b l : 0 <= occurrences b l.
Proof. unfold occurrences. lia. Qed.

Lemma occurrences_pos b l : b ∈ l -> 0 < occurrences b l.
Proof.
  induction l as [|x l IH]; intros Hin; [by apply elem_of_nil in Hin|].
  rewrite occurrences_cons. pose proof (occurrences_nonneg b l).
  apply elem_of_cons in Hin as [->|Hin]; [rewrite decide_True by done; lia|].
  specialize (IH Hin). case_decide; lia.
Qed.

Lemma occurrences_zero b l : b ∉ l -> occurrences b l = 0.
Proof.
  induction l as [|x l IH]; intros Hin; [done|].
  rewrite occurrences_cons. rewrite decide_False, IH; [done| |].
  - intros H. apply Hin. apply elem_of_cons; by right.
  - intros ->. apply Hin. apply elem_of_cons; by left.
Qed.

(** On a sorted list, [groupby] lists every key once, in ascending order,
    with the number of its occurrences. *)
Lemma groupby_sorted l :
  StronglySorted str_le l ->
  (forall c n, (c, n) ∈ groupby l -> c ∈ l /\ n = occurrences c l) /\
  (forall c, c ∈ l -> (c, occurrences c l) ∈ groupby l) /\
  StronglySorted (fun a b : string * Z => str_le a.1 b.1 /\ a.1 <> b.1) (groupby l) /\
  head (groupby l).*1 = head l.
Proof.
  induction 1 as [|x l Hl (IHin & IHall & IHs & IHhd) Hx]; cbn [groupby].
  - split_and!; [intros c n Hc; by apply elem_of_nil in Hc
                |intros c Hc; by apply elem_of_nil in Hc|constructor|done].
  - destruct (groupby l) as [|[y n] g] eqn:Hg.
    + assert (l = []) as ->.
      { destruct l as [|z l]; [done|]. exfalso.
        specialize (IHall z (proj2 (elem_of_cons _ _ _) (or_introl eq_refl))).
        by apply elem_of_nil in IHall. }
      split_and!; [| |repeat constructor|done].
      * intros c n Hc. apply list_elem_of_singleton in Hc as [= -> ->].
        split; [apply elem_of_cons; by left|].
        rewrite occurrences_cons, decide_True by done. done.
      * intros c Hc. apply list_elem_of_singleton in Hc as ->.
        rewrite occurrences_cons, decide_True by done. apply elem_of_cons; by left.
    + assert (Hy : head l = Some y) by (by rewrite <- IHhd).
      destruct l as [|y' l]; [done|]. injection Hy as ->.
      apply StronglySorted_inv in IHs as [IHs IHy].
      rewrite Forall_forall in IHy. rewrite Forall_forall in Hx.
      assert (Hyin := IHin y n (proj2 (elem_of_cons _ _ _) (or_introl eq_refl))).
      destruct Hyin as [_ Hn].
      case_decide as Hxy.
      * subst y. split_and!.
        -- intros c m Hc. apply elem_of_cons in Hc as [[= -> ->]|Hc].
           ++ split; [apply elem_of_cons; by left|].
              rewrite occurrences_cons, decide_True by done. lia.
           ++ assert (Hne : x <> c) by (by destruct (IHy (c, m) Hc)).
              destruct (IHin c m) as [Hcin ->]; [apply elem_of_cons; by right|].
              split; [apply elem_of_cons; by right|].
              rewrite (occurrences_cons c x (x :: l)), decide_False by done. done.
        -- intros c Hc. rewrite (occurrences_cons c x (x :: l)).
           apply elem_of_cons in Hc as [->|Hc].
           ++ rewrite decide_True by done. apply elem_of_cons; left.
              f_equal. lia.
           ++ specialize (IHall c Hc). apply elem_of_cons in IHall as [[= -> _]|IHall].
              ** rewrite decide_True by done. apply elem_of_cons; left. f_equal. lia.
              ** assert (Hne : x <> c) by (by destruct (IHy _ IHall)).
                 rewrite decide_False by done. apply elem_of_cons; by right.
        -- constructor; [done|]. apply Forall_forall. intros [c m] Hc. by apply IHy.
        -- done.
      * assert (Hxl : x ∉ y :: l).
        { intros Hin. apply Hxy. apply str_le_antisym.
          - apply Hx. apply elem_of_cons; by left.
          - apply StronglySorted_inv in Hl as [_ Hl].
            apply elem_of_cons in Hin as [->|Hin]; [by destruct (total str_le y y)|].
            rewrite Forall_forall in Hl. by apply Hl. }
        split_and!.
        -- intros c m Hc. apply elem_of_cons in Hc as [[= -> ->]|Hc].
           ++ split; [apply elem_of_cons; by left|].
              rewrite occurrences_cons, decide_True, occurrences_zero by done. done.
           ++ destruct (IHin c m Hc) as [Hcin ->].
              split; [apply elem_of_cons; by right|].
              rewrite (occurrences_cons c x), decide_False; [done|].
              intros ->. done.
        -- intros c Hc. rewrite (occurrences_cons c x).
           apply elem_of_cons in Hc as [->|Hc].
           ++ rewrite decide_True, occurrences_zero by done. apply elem_of_cons; by left.
           ++ rewrite decide_False by (intros ->; done).
              apply elem_of_cons; right. by apply IHall.
        -- constructor; [constructor; [done|by apply Forall_forall]|]. apply Forall_forall.
           intros [c m] Hc. cbn. destruct (IHin c m Hc) as [Hcin _].
           split; [by apply Hx|]. intros ->. done.
        -- done.
Qed.

(** [max] returns the first element that no other element exceeds. *)
Lemma first_max {A} (key : A -> Z) (l : list A) : forall best pre mid,
  (forall y, y ∈ pre -> key y < key best) ->
  (forall y, y ∈ mid -> key y <= key best) ->
  let r := fold_left (fun best y => if key best <? key y then y else best) l best in
  exists l1 l2, pre ++ best :: mid ++ l = l1 ++ r :: l2 /\
    (forall y, y ∈ l1 -> key y < key r) /\ (forall y, y ∈ l2 -> key y <= key r).
Proof.
  induction l as [|x l IH]; intros best pre mid Hpre Hmid; cbn [fold_left].
  - exists pre, mid. by rewrite app_nil_r.
  - destruct (Z.ltb_spec (key best) (key x)) as [Hlt|Hge].
    + destruct (IH x (pre ++ best :: mid) []) as (l1 & l2 & Heq & H1 & H2).
      { intros y Hy. apply elem_of_app in Hy as [Hy|Hy]; [specialize (Hpre y Hy); lia|].
        apply elem_of_cons in Hy as [->|Hy]; [done|]. specialize (Hmid y Hy). lia. }
      { intros y Hy. by apply elem_of_nil in Hy. }
      exists l1, l2. split; [|done]. rewrite <- Heq. by rewrite <- app_assoc.
    + destruct (IH best pre (mid ++ [x])) as (l1 & l2 & Heq & H1 & H2); [done| |].
      { intros y Hy. apply elem_of_app in Hy as [Hy|Hy]; [by apply Hmid|].
        apply list_elem_of_singleton in Hy as ->. done. }
      exists l1, l2. split; [|done]. rewrite <- Heq. by rewrite <- app_assoc.
Qed.

Lemma occurrences_perm b l1 l2 : l1 ≡ₚ l2 -> occurrences b l1 = occurrences b l2.
Proof. intros Hp. unfold occurrences. by rewrite Hp. Qed.

(** X15. For a group with at least one member,
    [_compute_group_basename] returns a basename that some member has and
    that no other basename outnumbers; among the basenames that occur as
    often, it is the first in string order. *)
Theorem group_basename_is_mode (basenames : list string) :
  basenames <> [] ->
  exists r, _compute_group_basename basenames = Returned r /\
    r ∈ basenames /\
    forall b, b ∈ basenames ->
      occurrences b basenames <= occurrences r basenames /\
      (occurrences b basenames = occurrences r basenames -> str_le r b).
Proof.
  intros Hne. unfold _compute_group_basename.
  pose proof (merge_sort_Permutation str_le basenames) as Hperm.
  pose proof (StronglySorted_merge_sort str_le basenames) as Hsorted.
  set (l := merge_sort str_le basenames) in *.
  destruct (groupby_sorted l Hsorted) as (Hin & Hall & Hstrict & _).
  destruct (groupby l) as [|g0 grouped] eqn:Hg.
  { exfalso. destruct basenames as [|b0 bs]; [done|].
    assert (Hb0 : b0 ∈ l) by (rewrite Hperm; apply elem_of_cons; by left).
    apply Hall in Hb0. by apply elem_of_nil in Hb0. }
  cbn [max_by bind].
  destruct (first_max snd grouped g0 [] []) as (l1 & l2 & Heq & H1 & H2);
    [intros y Hy; by apply elem_of_nil in Hy..|].
  cbn zeta in *. set (r := fold_left _ grouped g0) in *.
  cbn [app] in Heq. rewrite Heq in Hin, Hall, Hstrict.
  destruct (Hin r.1 r.2) as [Hrin Hr2].
  { apply elem_of_app; right. apply elem_of_cons; left. by destruct r. }
  eexists. split; [reflexivity|]. split; [by rewrite <- Hperm|].
  intros b Hb. rewrite <- Hperm in Hb.
  rewrite <- !(occurrences_perm _ _ _ Hperm). rewrite <- Hr2.
  specialize (Hall b Hb). apply elem_of_app in Hall as [Hall|Hall].
  - specialize (H1 _ Hall). cbn in H1. split; [lia|]. intros Heq'. lia.
  - apply elem_of_cons in Hall as [Hall|Hall].
    + rewrite <- Hall. cbn. split; [lia|]. intros _.
      by destruct (total str_le b b).
    + specialize (H2 _ Hall). cbn in H2. split; [done|]. intros _.
      apply StronglySorted_app_1_r in Hstrict.
      apply StronglySorted_inv in Hstrict as [_ Hstrict].
      rewrite Forall_forall in Hstrict. by destruct (Hstrict _ Hall).
Qed.

End GroupBasenameProps.

(** X15 on a tie between two basenames. *)
Lemma group_basename_is_mode_witness :
  GroupBasename._compute_group_basename ["kali"; "awoken kali"; "kali"; "awoken kali"; "zeus"]%string
    = Py.Returned "awoken kali"%string /\
  exists r, GroupBasename._compute_group_basename
              ["kali"; "awoken kali"; "kali"; "awoken kali"; "zeus"]%string = Py.Returned r /\
    r ∈ ["kali"; "awoken kali"; "kali"; "awoken kali"; "zeus"]%string.
Proof.
  split; [vm_compute; reflexivity|].
  destruct (group_basename_is_mode
              ["kali"; "awoken kali"; "kali"; "awoken kali"; "zeus"]%string) as (r & Hr & Hin & _);
    [done|].
  by exists r.
Defined.

(** ** Nickname generation *)

Section NicknamesProps.
Import Py Nicknames.

Lemma split_nonempty sep s : split sep s <> [].
Proof.
  destruct s as [|c s]; cbn [split]; [done|].
  destruct (Ascii.eqb c sep); [done|]. by destruct (split sep s).
Qed.

Lemma split_one sep : forall s w,
  split sep s = [w] <-> s = w /\ sep ∉ chars w.
Proof.
  induction s as [|c s IH]; intros w; cbn [split].
  - split; [intros [= <-]; split; [done|apply not_elem_of_nil]|by intros [<- _]].
  - destruct (Ascii.eqb_spec c sep) as [->|Hne].
    + split.
      * intros [= _ H]. by apply split_nonempty in H.
      * intros [<- H]. exfalso. apply H. cbn. apply elem_of_cons; by left.
    + destruct (split sep s) as [|p ps] eqn:Hs; [by apply split_nonempty in Hs|].
      split.
      * intros [= <- ->]. destruct (proj1 (IH p) eq_refl) as [-> Hp].
        split; [done|]. cbn. intros Hin. apply elem_of_cons in Hin as [->|Hin]; done.
      * intros [<- Hw]. cbn in Hw.
        assert (Hs' : p :: ps = [s]); [|by injection Hs' as -> ->].
        apply IH. split; [done|]. intros Hin. apply Hw. apply elem_of_cons; by right.
Qed.

Lemma split_two sep : forall s w1 w2,
  split sep s = [w1; w2] <->
  s = w1 +:+ String sep w2 /\ (sep ∉ chars w1) /\ (sep ∉ chars w2).
Proof.
  induction s as [|c s IH]; intros w1 w2; cbn [split].
  - split; [done|]. intros [H _]. by destruct w1.
  - destruct (Ascii.eqb_spec c sep) as [->|Hne].
    + split.
      * intros [= <- H]. apply split_one in H as [-> Hw].
        split_and!; [done|apply not_elem_of_nil|done].
      * intros (Hs & H1 & H2). destruct w1 as [|c1 w1].
        -- cbn in Hs. injection Hs as ->. f_equal. apply split_one. done.
        -- cbn in Hs. injection Hs as <- _. exfalso. apply H1. cbn.
           apply elem_of_cons; by left.
    + destruct (split sep s) as [|p ps] eqn:Hs; [by apply split_nonempty in Hs|].
      split.
      * intros [= <- ->]. destruct (proj1 (IH p w2) eq_refl) as (-> & H1 & H2).
        split_and!; [done| |done]. cbn. intros Hin.
        apply elem_of_cons in Hin as [->|Hin]; done.
      * intros (Heq & H1 & H2). destruct w1 as [|c1 w1].
        -- cbn in Heq. injection Heq as -> _. done.
        -- cbn in Heq. injection Heq as <- ->.
           assert (Hs' : p :: ps = [w1; w2]); [|by injection Hs' as -> ->].
           apply IH. split_and!; [done| |done].
           intros Hin. apply H1. cbn. apply elem_of_cons; by right.
Qed.

Lemma add_basename_spec prefixes nicknames basename k :
  k ∈ add_basename prefixes nicknames basename <->
  k ∈ nicknames \/ nickname_of prefixes basename k.
Proof.
  unfold add_basename, nickname_of.
  assert (Hfold : forall ps (acc : gset string),
    k ∈ fold_left
          (fun acc prefix => acc ∪ {[prefix +:+ basename]} ∪ {[prefix +:+ " " +:+ basename]})
          ps acc <->
    k ∈ acc \/ exists p, p ∈ ps /\ (k = p +:+ basename \/ k = p +:+ " " +:+ basename)).
  { induction ps as [|p ps IH]; intros acc; cbn [fold_left].
    - split; [by left|]. intros [?|(p & Hp & _)]; [done|]. by apply elem_of_nil in Hp.
    - rewrite IH, !elem_of_union, !elem_of_singleton. split.
      + intros [[[?|?]|?]|(p' & Hp' & Hk)]; [by left| | |].
        * right. exists p. split; [apply elem_of_cons; by left|by left].
        * right. exists p. split; [apply elem_of_cons; by left|by right].
        * right. exists p'. split; [apply elem_of_cons; by right|done].
      + intros [?|(p' & Hp' & Hk)]; [left; left; by left|].
        apply elem_of_cons in Hp' as [->|Hp'].
        * left. destruct Hk; [left; by right|by right].
        * right. by exists p'. }
  rewrite Hfold, elem_of_union, elem_of_singleton.
  setoid_rewrite elem_of_elements. tauto.
Qed.

Lemma add_basenames_spec prefixes (bs : list string) k : forall nicknames : gset string,
  k ∈ fold_left (add_basename prefixes) bs nicknames <->
  k ∈ nicknames \/ exists b, b ∈ bs /\ nickname_of prefixes b k.
Proof.
  induction bs as [|b bs IH]; intros nicknames; cbn [fold_left].
  - split; [by left|]. intros [?|(b & Hb & _)]; [done|]. by apply elem_of_nil in Hb.
  - rewrite IH, add_basename_spec. split.
    + intros [[?|?]|(b' & Hb' & Hk)]; [by left| |].
      * right. exists b. split; [apply elem_of_cons; by left|done].
      * right. exists b'. split; [apply elem_of_cons; by right|done].
    + intros [?|(b' & Hb' & Hk)]; [left; by left|].
      apply elem_of_cons in Hb' as [->|Hb']; [left; by right|].
      right. by exists b'.
Qed.

(** X16. The nicknames of a monster are exactly: its override nicknames,
    its romanised subname when that is not empty, every basename of its
    group, and every prefix directly followed by a basename or separated
    from it by one space. *)
Theorem final_nicknames_spec extra roma (bs ps : gset string) k :
  k ∈ final_nicknames extra roma bs ps <->
  k ∈ extra \/ (roma = Some k /\ k <> EmptyString) \/
  exists b, b ∈ bs /\ nickname_of ps b k.
Proof.
  unfold final_nicknames. rewrite add_basenames_spec.
  setoid_rewrite elem_of_elements.
  destruct roma as [[|c s]|].
  - split; [intros [?|?]; [by left|right; by right]|].
    intros [?|[[Heq ?]|?]]; [| injection Heq as <- |]; [by left|done|by right].
  - rewrite elem_of_union, elem_of_singleton. split.
    + intros [[?| ->]|?]; [by left|right; by left|right; by right].
    + intros [?|[[Heq _]|?]]; [| injection Heq as <- |]; [left; by left|left; by right|by right].
  - split; [intros [?|?]; [by left|right; by right]|].
    intros [?|[[? _]|?]]; [by left|done|by right].
Qed.

Lemma two_word_basenames_spec (bs : gset string) w2 :
  w2 ∈ two_word_basenames bs <->
  exists w1, w1 +:+ String " " w2 ∈ bs /\ (" "%char ∉ chars w1) /\ (" "%char ∉ chars w2).
Proof.
  unfold two_word_basenames.
  assert (Hfold : forall l (acc : gset string),
    w2 ∈ fold_left
           (fun acc basename =>
              match split " " basename with
              | [_; second] => acc ∪ {[second]}
              | _ => acc
              end) l acc <->
    w2 ∈ acc \/ exists b w1, b ∈ l /\ split " " b = [w1; w2]).
  { induction l as [|b l IH]; intros acc; cbn [fold_left].
    - split; [by left|]. intros [?|(b & w1 & Hb & _)]; [done|]. by apply elem_of_nil in Hb.
    - rewrite IH. split.
      + intros [Hacc|(b' & w1 & Hb' & Hs)].
        * destruct (split " " b) as [|x [|y [|z t]]] eqn:Hs; try by left.
          apply elem_of_union in Hacc as [?|Hy]; [by left|].
          apply elem_of_singleton in Hy as ->. right. exists b, x.
          split; [apply elem_of_cons; by left|done].
        * right. exists b', w1. split; [apply elem_of_cons; by right|done].
      + intros [?|(b' & w1 & Hb' & Hs)].
        * left. destruct (split " " b) as [|x [|y [|z t]]]; try done.
          apply elem_of_union; by left.
        * apply elem_of_cons in Hb' as [->|Hb'].
          -- left. rewrite Hs. apply elem_of_union; right. by apply elem_of_singleton.
          -- right. by exists b', w1. }
  rewrite Hfold. split.
  - intros [Hemp|(b & w1 & Hb & Hs)]; [by apply elem_of_empty in Hemp|].
    apply elem_of_elements in Hb. apply split_two in Hs as (-> & H1 & H2).
    by exists w1.
  - intros (w1 & Hb & H1 & H2). right. exists (w1 +:+ String " " w2), w1.
    split; [by apply elem_of_elements|]. by apply split_two.
Qed.

(** X17. A basename contributes to the two-word nicknames exactly when
    it consists of two words separated by a single space (no leading,
    trailing or further space); the nicknames are then its second word,
    alone or behind a prefix, with or without a space. *)
Theorem two_word_nicknames_spec (bs ps : gset string) k :
  k ∈ final_two_word_nicknames bs ps <->
  exists w1 w2,
    w1 +:+ String " " w2 ∈ bs /\ (" "%char ∉ chars w1) /\ (" "%char ∉ chars w2) /\
    nickname_of ps w2 k.
Proof.
  unfold final_two_word_nicknames. rewrite add_basenames_spec.
  setoid_rewrite elem_of_elements. setoid_rewrite two_word_basenames_spec. split.
  - intros [Hemp|(w2 & (w1 & Hb & H1 & H2) & Hk)]; [by apply elem_of_empty in Hemp|].
    by exists w1, w2.
  - intros (w1 & w2 & Hb & H1 & H2 & Hk). right. exists w2. split; [by exists w1|done].
Qed.

Lemma append_empty s : EmptyString +:+ s = s.
Proof. reflexivity. Qed.

Lemma append_cons c s t : String c s +:+ t = String c (s +:+ t).
Proof. reflexivity. Qed.

Lemma prefix_empty s : String.prefix EmptyString s = true.
Proof. by destruct s. Qed.

Lemma contains_char a : forall s,
  a ∈ chars s -> contains (String a EmptyString) s = true.
Proof.
  induction s as [|c s IH]; intros Hin; [by apply elem_of_nil in Hin|].
  cbn [contains]. apply orb_true_iff.
  cbn in Hin. apply elem_of_cons in Hin as [->|Hin]; [|right; by apply IH].
  left. unfold startswith. cbn [String.prefix]. rewrite prefix_empty.
  by destruct (Ascii.ascii_dec c c).
Qed.

Lemma replace_char_absent a b : forall s,
  a ∉ chars s -> replace_go (String a EmptyString) (String b EmptyString) 0 s = s.
Proof.
  induction s as [|c s IH]; intros Hin; [done|].
  cbn [replace_go]. unfold startswith. cbn [String.prefix].
  destruct (Ascii.ascii_dec a c) as [->|Hne].
  - exfalso. apply Hin. cbn. apply elem_of_cons; by left.
  - rewrite IH; [done|]. intros H. apply Hin. cbn. apply elem_of_cons; by right.
Qed.

Lemma replace_char_once a b : forall w1 w2,
  a ∉ chars w1 -> a ∉ chars w2 ->
  replace (String a EmptyString) (String b EmptyString) (w1 +:+ String a w2) =
  w1 +:+ String b w2.
Proof.
  unfold replace. induction w1 as [|c w1 IH]; intros w2 H1 H2.
  - rewrite !append_empty. cbn [replace_go]. unfold startswith. cbn [String.prefix].
    rewrite prefix_empty. destruct (Ascii.ascii_dec a a); [|done].
    cbn [String.length Nat.pred].
    rewrite replace_char_absent by done. done.
  - rewrite !append_cons. cbn [replace_go]. unfold startswith. cbn [String.prefix].
    destruct (Ascii.ascii_dec a c) as [->|Hne].
    + exfalso. apply H1. cbn. apply elem_of_cons; by left.
    + rewrite IH; [done| |done]. intros H. apply H1. cbn. apply elem_of_cons; by right.
Qed.

Lemma chars_app s1 s2 : chars (s1 +:+ s2) = chars s1 ++ chars s2.
Proof.
  induction s1 as [|c s1 IH]; [done|]. rewrite append_cons. cbn [chars]. by rewrite IH.
Qed.

(** X18. A group without basename overrides whose computed basename is
    two space-free words joined by one hyphen also gets the basename with
    a space for the hyphen, so that the second word, alone and behind
    every prefix, becomes a two-word nickname of its monsters. *)
Theorem hyphenated_basename_second_word (w1 w2 : string) (prefixes : gset string) :
  "-"%char ∉ chars w1 -> "-"%char ∉ chars w2 ->
  " "%char ∉ chars w1 -> " "%char ∉ chars w2 ->
  let group_basenames := basenames ∅ (w1 +:+ String "-" w2) in
  w1 +:+ String " " w2 ∈ group_basenames /\
  w2 ∈ final_two_word_nicknames group_basenames prefixes /\
  forall p, p ∈ prefixes ->
    p +:+ w2 ∈ final_two_word_nicknames group_basenames prefixes /\
    p +:+ " " +:+ w2 ∈ final_two_word_nicknames group_basenames prefixes.
Proof.
  intros Hh1 Hh2 Hs1 Hs2 bs.
  assert (Hin : w1 +:+ String " " w2 ∈ bs).
  { unfold bs, basenames, computed_basenames. rewrite decide_True by done.
    rewrite contains_char.
    - apply elem_of_union; right. apply elem_of_singleton.
      symmetry. by apply (replace_char_once "-" " ").
    - rewrite chars_app. apply elem_of_app; right. cbn. apply elem_of_cons; by left. }
  split; [done|].
  assert (Hall : forall k, nickname_of prefixes w2 k ->
                   k ∈ final_two_word_nicknames bs prefixes).
  { intros k Hk. unfold final_two_word_nicknames. apply add_basenames_spec.
    right. exists w2. split; [|done].
    apply elem_of_elements, two_word_basenames_spec. by exists w1. }
  split.
  - apply Hall. by left.
  - intros p Hp. split; apply Hall; right; exists p; (split; [done|]); [by left|by right].
Qed.

End NicknamesProps.

(** X18 on the basename "spider-man" with the prefix "dark". *)
Lemma hyphenated_basename_second_word_witness :
  "dark man"%string ∈
    Nicknames.final_two_word_nicknames (Nicknames.basenames ∅ "spider-man") {["dark"%string]}.
Proof.
  destruct (hyphenated_basename_second_word "spider" "man" {["dark"%string]})
    as (_ & _ & Hp).
  - intros Hin. repeat (apply elem_of_cons in Hin as [[=]|Hin]). by apply elem_of_nil in Hin.
  - intros Hin. repeat (apply elem_of_cons in Hin as [[=]|Hin]). by apply elem_of_nil in Hin.
  - intros Hin. repeat (apply elem_of_cons in Hin as [[=]|Hin]). by apply elem_of_nil in Hin.
  - intros Hin. repeat (apply elem_of_cons in Hin as [[=]|Hin]). by apply elem_of_nil in Hin.
  - apply (Hp "dark"%string). by apply elem_of_singleton.
Defined.

(** ** Numeric queries *)

Section NumericQueries.

Import Py Index.

Variable rmdiacritics : string -> string.
Variable containsJp : string -> bool.
Variable get_close_matches : string -> list string -> nat -> Q -> list string.

(** X19. A query whose normalised form is a decimal number that is the
    NA id of an indexed monster is answered by the id lookup, with a
    monster of that id, whatever the nickname and override tables hold
    under the same digit string. *)
Theorem numeric_query_goes_by_id nms overrides query n m :
  isdigit (normalize rmdiacritics query) = true ->
  int_digits (normalize rmdiacritics query) = Returned n ->
  m ∈ nms -> monster_no_na m = n ->
  exists m',
    find_monster rmdiacritics containsJp get_close_matches
      (MonsterIndex_init nms overrides) query = Returned (Some m', None, Some "ID lookup"%string) /\
    m' ∈ nms /\ monster_no_na m' = n.
Proof.
  intros Hdigit Hint Hm Hn. unfold find_monster. rewrite Hdigit, Hint. cbn [bind].
  cbn [MonsterIndex_init monster_no_na_to_named_monster].
  destruct (dict_by_lookup monster_no_na (sort nms)) as [Hbound Hval].
  destruct (Hbound m) as [m' Hm']; [by rewrite sort_perm|].
  rewrite Hn in Hm'. rewrite Hm'. exists m'. split; [done|].
  destruct (Hval _ _ Hm') as [Hin Hno]. split; [by rewrite <- (sort_perm nms)|done].
Qed.

(** X20. [find_monster] tests the normalised query with [isdigit] and
    converts it with [int]: when every character passes [isdigit] but not
    every one is a decimal digit, the call raises [ValueError] and returns
    no triple. *)
Theorem digit_query_rejected_by_int idx query :
  isdigit (normalize rmdiacritics query) = true ->
  forallb isdecimal_char (chars (normalize rmdiacritics query)) = false ->
  find_monster rmdiacritics containsJp get_close_matches idx query = Raised ValueError.
Proof.
  intros Hdigit Hdec. unfold find_monster. rewrite Hdigit.
  pose proof (int_digits_spec (normalize rmdiacritics query)) as Hint.
  rewrite Hdec in Hint. by rewrite Hint.
Qed.

End NumericQueries.

(** X19 on the query " 12 ", a string that the override table sends to
    monster 7. *)
Lemma numeric_query_goes_by_id_witness :
  Index.demo_overrides !! "12"%string = Some 7 /\
  exists m',
    Index.find_monster Index.plain_rmdiacritics Index.plain_containsJp
      Index.no_close_matches Index.demo_index " 12 " =
      Py.Returned (Some m', None, Some "ID lookup"%string) /\
    m' ∈ Index.demo_monsters /\ Index.monster_no_na m' = 12.
Proof.
  split; [vm_compute; reflexivity|].
  apply (numeric_query_goes_by_id Index.plain_rmdiacritics Index.plain_containsJp
           Index.no_close_matches Index.demo_monsters Index.demo_overrides " 12 " 12
           Index.demo_revo).
  - vm_compute; reflexivity.
  - vm_compute; reflexivity.
  - apply elem_of_cons; by left.
  - reflexivity.
Defined.

(** X20 on the superscript two. *)
Lemma digit_query_rejected_by_int_witness :
  Index.find_monster Index.plain_rmdiacritics Index.plain_containsJp
    Index.no_close_matches Index.demo_index Overrides.superscript_two =
  Py.Raised Py.ValueError.
Proof.
  apply digit_query_rejected_by_int; vm_compute; reflexivity.
Defined.

(** ** Event names *)

Section EventsProps.
Import Py Events.

Lemma replace_go_absent (a : ascii) old new : forall s skip,
  a ∉ chars new -> a ∉ chars s -> a ∉ chars (replace_go old new skip s).
Proof.
  induction s as [|c s IH]; intros skip Hnew Hs; [done|].
  assert (Hs' : a ∉ chars s).
  { intros H. apply Hs. cbn [chars]. apply elem_of_cons; by right. }
  assert (Hc : a <> c).
  { intros ->. apply Hs. cbn [chars]. apply elem_of_cons; by left. }
  cbn [replace_go]. destruct skip as [|k]; [|by apply IH].
  destruct (startswith _ _).
  - rewrite chars_app. intros H. apply elem_of_app in H as [H|H]; [done|].
    by apply (IH (Nat.pred (String.length old))).
  - cbn [chars]. intros H. apply elem_of_cons in H as [H|H]; [done|].
    by apply (IH 0%nat).
Qed.

Lemma replace_absent (a : ascii) old new s :
  a ∉ chars new -> a ∉ chars s -> a ∉ chars (replace old new s).
Proof. apply replace_go_absent. Qed.

Lemma replace_char_deletes (a : ascii) : forall s,
  a ∉ chars (replace (String a EmptyString) EmptyString s).
Proof.
  unfold replace. induction s as [|c s IH]; [apply not_elem_of_nil|].
  cbn [replace_go]. unfold startswith. cbn [String.prefix]. rewrite prefix_empty.
  destruct (Ascii.ascii_dec a c) as [->|Hne].
  - cbn [String.length Nat.pred]. by rewrite append_empty.
  - cbn [chars]. intros H. apply elem_of_cons in H as [H|H]; done.
Qed.

(** X21. A cleaned dungeon name never contains an exclamation mark: the
    marks of the input are deleted, and no replacement made before or
    after that step, nor either of the two fixed names, brings one in. *)
Theorem clean_name_has_no_exclamation (name : string) :
  "!"%char ∉ chars (cleanDungeonNames name).
Proof.
  assert (Hlit : forall s : string,
            forallb (fun c => negb (Ascii.eqb c "!")) (chars s) = true ->
            "!"%char ∉ chars s).
  { intros s Hs Hin. rewrite forallb_forall in Hs.
    apply list_elem_of_In in Hin. apply Hs in Hin.
    by rewrite Ascii.eqb_refl in Hin. }
  unfold cleanDungeonNames. destruct (contains _ (lower name)); [by apply Hlit|].
  repeat first [apply replace_char_deletes | apply replace_absent; [by apply Hlit|]].
Qed.

End EventsProps.
